(** * LiSAT: relational successor generation

    A shallow embedding of the semi-join primitive ([semi_join]), of the
    successor generator ([search/successor_generators/successor_generator.cc])
    and of the heuristic factory ([search/heuristics/heuristic_factory.h]),
    together with the properties the design document states about them.

    Conventions.
    - A C++ [int] is a [Z]; none of the embedded functions does arithmetic on
      the values it moves around, so no wrap-around is involved.
    - A [std::vector<T>] is a [list T].  [operator[]] outside the bounds of
      the vector is undefined behaviour and a failed [assert] aborts: both
      are the result [None] of the embedding.
    - A [std::unordered_set<GroundAtom>] is a [gset (list Z)].
    - Loops are recursive functions over the vector they traverse and keep
      the early exits ([break], [return]) of the source. *)

From Stdlib Require Import Ascii.
From stdpp Require Import base option list gmap strings.

#[local] Set Warnings "-clear-no-such-hyp".

(** ** Vectors indexed by an [int] *)

(** [v[i]] for an [int] index: a negative index converts to a huge
    [size_t] and is out of bounds like any index past the end. *)
Definition vec_at {A} (v : list A) (i : Z) : option A :=
  if decide (0 ≤ i)%Z then v !! Z.to_nat i else None.

(** [v[i] = x] for an [int] index. *)
Definition vec_set {A} (v : list A) (i : Z) (x : A) : option (list A) :=
  if decide (0 ≤ i < Z.of_nat (length v))%Z
  then Some (<[Z.to_nat i := x]> v) else None.

(** ** Tables ([database/table.h]) *)

(** Modelled from the spec: the declaration of [Table] in
    [database/table.h] is missing.  A table is a list of columns, each
    tagged with a variable slot id or with the mark of a constant, and a
    list of rows aligned to the columns; the two members are named as
    [semi_join] and the successor generator use them, the tags being the
    [int]s of [tuple_index].  The method [Table::index_is_variable], which
    tells the two kinds of tags apart, is a parameter wherever it is
    called. *)
Record Table := mkTable {
  tuples : list (list Z);
  tuple_index : list Z
}.

(** Every row is as long as the list of columns. *)
Definition table_wf (t : Table) : Prop :=
  Forall (λ r, length r = length (tuple_index t)) (tuples t).

(** ** The semi-join ([semi_join]) *)

(** Lines 18-24: all pairs of column positions carrying equal entries of
    [tuple_index], in the order of the two nested loops. *)
Definition matches_in_row (t1 t2 : Table) (i : nat) : list (nat * nat) :=
  flat_map
    (λ j, if bool_decide (tuple_index t1 !! i = tuple_index t2 !! j)
          then [(i, j)] else [])
    (seq 0 (length (tuple_index t2))).

Definition compute_matches (t1 t2 : Table) : list (nat * nat) :=
  flat_map (matches_in_row t1 t2) (seq 0 (length (tuple_index t1))).

(** Lines 39-45: the innermost loop, leaving at the first mismatch. *)
Fixpoint tuples_match (matches : list (nat * nat)) (tuple_t1 tuple_t2 : list Z)
  : option bool :=
  match matches with
  | [] => Some true
  | m :: rest =>
      a ← tuple_t1 !! m.1;
      b ← tuple_t2 !! m.2;
      if bool_decide (a ≠ b) then Some false
      else tuples_match rest tuple_t1 tuple_t2
  end.

(** Lines 38-52: the loop over the rows of [t2], leaving at the first row
    that matches. *)
Fixpoint has_match (matches : list (nat * nat)) (tuple_t1 : list Z)
    (tuples_t2 : list (list Z)) : option bool :=
  match tuples_t2 with
  | [] => Some false
  | tuple_t2 :: rest =>
      m ← tuples_match matches tuple_t1 tuple_t2;
      if m : bool then Some true else has_match matches tuple_t1 rest
  end.

(** Lines 37-53: the loop over the rows of [t1]; the result is
    [new_tuples]. *)
Fixpoint join_tuples (matches : list (nat * nat))
    (tuples_t1 tuples_t2 : list (list Z)) : option (list (list Z)) :=
  match tuples_t1 with
  | [] => Some []
  | tuple_t1 :: rest =>
      keep ← has_match matches tuple_t1 tuples_t2;
      new_tuples ← join_tuples matches rest tuples_t2;
      Some (if keep : bool then tuple_t1 :: new_tuples else new_tuples)
  end.

(** The result is the value of [t1] at the return; [t2] is only read. *)
Definition semi_join (t1 t2 : Table) : option Table :=
  let matches := compute_matches t1 t2 in
  match matches with
  | [] => Some t1
  | _ :: _ =>
      new_tuples ← join_tuples matches (tuples t1) (tuples t2);
      Some {| tuples := new_tuples; tuple_index := tuple_index t1 |}
  end.

(** Two rows agree on the matching columns. *)
Definition agree_on (matches : list (nat * nat)) (r1 r2 : list Z) : Prop :=
  ∀ i j, (i, j) ∈ matches → ∃ v, r1 !! i = Some v ∧ r2 !! j = Some v.

(** The executable form of [agree_on] on rows that are long enough. *)
Definition agree_onb (matches : list (nat * nat)) (r1 r2 : list Z) : bool :=
  forallb (λ m, bool_decide (r1 !! m.1 = r2 !! m.2)) matches.

(** One implementation of [Table::index_is_variable], used for concrete
    tables: an entry of [tuple_index] that is not negative is a variable
    slot id, a negative entry marks a constant. *)
Definition nonneg_is_variable (t : Table) (j : nat) : bool :=
  match tuple_index t !! j with
  | Some s => bool_decide (0 ≤ s)%Z
  | None => false
  end.

(** What the design document calls a matching pair: both columns are
    variable columns and carry the same slot id. *)
Definition same_variable_slot (is_var : Table → nat → bool)
    (t1 t2 : Table) (i j : nat) : Prop :=
  ∃ s, tuple_index t1 !! i = Some s ∧ tuple_index t2 !! j = Some s ∧
       is_var t1 i = true ∧ is_var t2 j = true.

(** The matching pairs address columns that exist in both rows. *)
Definition in_range (ms : list (nat * nat)) (r r' : list Z) : Prop :=
  ∀ i j, (i, j) ∈ ms → i < length r ∧ j < length r'.

(** A row of [rows] agrees with [r] on the matching columns. *)
Definition has_witness (ms : list (nat * nat)) (rows : list (list Z))
    (r : list Z) : Prop :=
  ∃ r', r' ∈ rows ∧ agree_on ms r r'.

Definition has_witnessb (ms : list (nat * nat)) (rows : list (list Z))
    (r : list Z) : bool :=
  existsb (agree_onb ms r) rows.

(** Occurrences of a row in a list of rows. *)
Definition count_row (r : list Z) (rows : list (list Z)) : nat :=
  length (filter (λ r', r' = r) rows).

(** ** The planning task ([atom.h], [action_schema.h], [states/state.h]) *)

(** Modelled from the spec: the declarations of [Argument], [Atom],
    [Relation], [DBState], [ActionSchema] and [LiftedOperatorId] are
    missing.  The records have the content the data model gives them, under
    the names of the members and accessors the successor generator uses;
    [Relation::predicate_symbol] and [Relation::tuples] carry the prefix
    [rel_], [LiftedOperatorId::get_index] the prefix [op_]. *)
Record Argument := mkArgument {
  index : Z;
  constant : bool
}.

Record Atom := mkAtom {
  predicate_symbol : Z;
  arguments : list Argument;
  negated : bool
}.

Record Relation := mkRelation {
  rel_predicate_symbol : Z;
  rel_tuples : gset (list Z)
}.

Record DBState := mkDBState {
  get_relations : list Relation;
  get_nullary_atoms : list bool
}.

Record ActionSchema := mkActionSchema {
  get_index : Z;
  is_ground : bool;
  get_precondition : list Atom;
  get_effects : list Atom;
  get_positive_nullary_precond : list bool;
  get_negative_nullary_precond : list bool;
  get_positive_nullary_effects : list bool;
  get_negative_nullary_effects : list bool
}.

Record LiftedOperatorId := mkLiftedOperatorId {
  op_get_index : Z;
  get_instantiation : list Z
}.

(** Modelled from the spec: [DBState::get_tuples_of_relation] is missing;
    the relations are stored in an array indexed by predicate id, so the
    accessor is [relations[i].tuples]. *)
Definition get_tuples_of_relation (s : DBState) (i : Z)
  : option (gset (list Z)) :=
  rel_tuples <$> vec_at (get_relations s) i.

(** The members of the generator that its methods name: the static
    information, which has the shape of a state, and the two vectors the
    constructor fills are read; the scratch atom is overwritten by every
    call of [tuple_to_atom]. *)
Record SuccessorGenerator := mkSuccessorGenerator {
  static_information : DBState;
  obj_per_type : list (list Z);
  is_predicate_static : list bool;
  ground_atom : list Z
}.

Definition get_tuples_from_static_relation (g : SuccessorGenerator) (i : Z)
  : option (gset (list Z)) :=
  get_tuples_of_relation (static_information g) i.

(** The loop of the constructor that fills [is_predicate_static]. *)
Definition compute_is_predicate_static (static : DBState) : list bool :=
  (λ r, negb (bool_decide (rel_tuples r = ∅))) <$> get_relations static.

(** ** Nullary preconditions and effects *)

(** Lines 135-140, from position [i] on. *)
Fixpoint is_trivially_inapplicable_from (i : nat)
    (positive_precond negative_precond nullary_atoms : list bool)
  : option bool :=
  match positive_precond with
  | [] => Some false
  | p :: rest =>
      c ← (if p : bool then negb <$> nullary_atoms !! i else Some false);
      c' ← (if c : bool then Some true
            else n ← negative_precond !! i;
                 if n : bool then nullary_atoms !! i else Some false);
      if c' : bool then Some true
      else is_trivially_inapplicable_from (S i) rest negative_precond
             nullary_atoms
  end.

Definition is_trivially_inapplicable (state : DBState) (action : ActionSchema)
  : option bool :=
  is_trivially_inapplicable_from 0
    (get_positive_nullary_precond action)
    (get_negative_nullary_precond action)
    (get_nullary_atoms state).

(** One of the two loops of [apply_nullary_effects], from position [i] on:
    [new_nullary_atoms[i] = b] wherever the effect vector holds [true]. *)
Fixpoint assign_where (effects : list bool) (i : nat) (b : bool)
    (new_nullary_atoms : list bool) : option (list bool) :=
  match effects with
  | [] => Some new_nullary_atoms
  | e :: rest =>
      atoms ← (if e : bool
               then if decide (i < length new_nullary_atoms)
                    then Some (<[i := b]> new_nullary_atoms) else None
               else Some new_nullary_atoms);
      assign_where rest (S i) b atoms
  end.

Definition apply_nullary_effects (action : ActionSchema)
    (new_nullary_atoms : list bool) : option (list bool) :=
  atoms ← assign_where (get_negative_nullary_effects action) 0 false
            new_nullary_atoms;
  assign_where (get_positive_nullary_effects action) 0 true atoms.

(** ** Effects on the relations *)

Definition with_tuples (r : Relation) (ts : gset (list Z)) : Relation :=
  {| rel_predicate_symbol := rel_predicate_symbol r; rel_tuples := ts |}.

(** [tuples.erase(ga)] and [tuples.insert(ga)] on [new_relation[p]], after
    the assertion on the predicate symbol. *)
Definition update_relation (new_relation : list Relation) (p : Z)
    (f : gset (list Z) → gset (list Z)) : option (list Relation) :=
  r ← vec_at new_relation p;
  _ ← guard (p = rel_predicate_symbol r);
  vec_set new_relation p (with_tuples r (f (rel_tuples r))).

Definition erase (ga : list Z) (ts : gset (list Z)) : gset (list Z) :=
  ts ∖ {[ga]}.

Definition insert_atom (ga : list Z) (ts : gset (list Z)) : gset (list Z) :=
  {[ga]} ∪ ts.

(** Lines 165-170: the ground atom of an effect without variables. *)
Definition ground_effect_atom (eff : Atom) : option (list Z) :=
  mapM (λ a, _ ← guard (constant a = true); Some (index a)) (arguments eff).

Definition apply_ground_effect (eff : Atom) (new_relation : list Relation)
  : option (list Relation) :=
  ga ← ground_effect_atom eff;
  update_relation new_relation (predicate_symbol eff)
    (if negated eff then erase ga else insert_atom ga).

Fixpoint apply_ground_effects (effects : list Atom)
    (new_relation : list Relation) : option (list Relation) :=
  match effects with
  | [] => Some new_relation
  | eff :: rest =>
      new_relation' ← apply_ground_effect eff new_relation;
      apply_ground_effects rest new_relation'
  end.

Definition apply_ground_action_effects (action : ActionSchema)
    (new_relation : list Relation) : option (list Relation) :=
  apply_ground_effects (get_effects action) new_relation.

(** Lines 216-223: the arguments of the effect under the instantiation. *)
Definition resolve_arguments (tuple : list Z) (eff : Atom) : option (list Z) :=
  mapM (λ a, if constant a then Some (index a) else vec_at tuple (index a))
       (arguments eff).

Definition set_ground_atom (g : SuccessorGenerator) (ga : list Z)
  : SuccessorGenerator :=
  {| static_information := static_information g;
     obj_per_type := obj_per_type g;
     is_predicate_static := is_predicate_static g;
     ground_atom := ga |}.

(** [tuple_to_atom] fills the scratch member and returns a reference to it;
    the caller reads it before the next call. *)
Definition tuple_to_atom (tuple : list Z) (eff : Atom) (g : SuccessorGenerator)
  : option (list Z * SuccessorGenerator) :=
  ga ← resolve_arguments tuple eff;
  _ ← guard ((-1)%Z ∉ ga);
  Some (ga, set_ground_atom g ga).

(** Lines 188-201: the body of the loop over the effects. *)
Definition apply_lifted_effect (tuple : list Z) (eff : Atom)
    (new_relation : list Relation) (g : SuccessorGenerator)
  : option (list Relation * SuccessorGenerator) :=
  '(ga, g') ← tuple_to_atom tuple eff g;
  new_relation' ←
    update_relation new_relation (predicate_symbol eff)
      (if negated eff then erase ga
       else λ ts, if decide (ga ∈ ts) then ts else insert_atom ga ts);
  Some (new_relation', g').

Fixpoint apply_lifted_effects (effects : list Atom) (tuple : list Z)
    (new_relation : list Relation) (g : SuccessorGenerator)
  : option (list Relation * SuccessorGenerator) :=
  match effects with
  | [] => Some (new_relation, g)
  | eff :: rest =>
      '(new_relation', g') ← apply_lifted_effect tuple eff new_relation g;
      apply_lifted_effects rest tuple new_relation' g'
  end.

Definition apply_lifted_action_effects (action : ActionSchema)
    (tuple : list Z) (new_relation : list Relation) (g : SuccessorGenerator)
  : option (list Relation * SuccessorGenerator) :=
  apply_lifted_effects (get_effects action) tuple new_relation g.

(** [generate_successors]: the successor and the generator after the call. *)
Definition generate_successors (op : LiftedOperatorId) (action : ActionSchema)
    (state : DBState) (g : SuccessorGenerator)
  : option (DBState * SuccessorGenerator) :=
  let new_nullary_atoms := get_nullary_atoms state in
  let new_relation := get_relations state in
  new_nullary_atoms' ← apply_nullary_effects action new_nullary_atoms;
  '(new_relation', g') ←
    (if is_ground action
     then new_relation' ← apply_ground_action_effects action new_relation;
          Some (new_relation', g)
     else apply_lifted_action_effects action (get_instantiation op)
            new_relation g);
  Some ({| get_relations := new_relation';
           get_nullary_atoms := new_nullary_atoms' |}, g').

(** ** Applicability of a ground action *)

(** Lines 244-277: the body of the loop over the preconditions; [false] is
    the [return false] of the source. *)
Definition precondition_holds (g : SuccessorGenerator) (state : DBState)
    (precond : Atom) : option bool :=
  tuple ← mapM (λ arg, _ ← guard (constant arg = true); Some (index arg))
            (arguments precond);
  tuples_in_relation ←
    get_tuples_of_relation state (predicate_symbol precond);
  static_tuples ←
    get_tuples_from_static_relation g (predicate_symbol precond);
  if decide (tuples_in_relation ≠ ∅) then
    if negated precond
    then Some (negb (bool_decide (tuple ∈ tuples_in_relation)))
    else Some (bool_decide (tuple ∈ tuples_in_relation))
  else if decide (static_tuples ≠ ∅) then
    if negated precond
    then Some (negb (bool_decide (tuple ∈ static_tuples)))
    else Some (bool_decide (tuple ∈ static_tuples))
  else Some false.

Fixpoint preconditions_hold (g : SuccessorGenerator) (state : DBState)
    (preconds : list Atom) : option bool :=
  match preconds with
  | [] => Some true
  | precond :: rest =>
      ok ← precondition_holds g state precond;
      if ok : bool then preconditions_hold g state rest else Some false
  end.

Definition is_ground_action_applicable (g : SuccessorGenerator)
    (action : ActionSchema) (state : DBState) : option bool :=
  preconditions_hold g state (get_precondition action).

(** ** Canonical order of an instantiation *)

(** Lines 115-117, the two index vectors walked in step. *)
Fixpoint order_tuple_by_free_variable_order
    (free_var_indices map_indices_to_position tuple_with_const
       ordered_tuple : list Z) : option (list Z) :=
  match free_var_indices with
  | [] => Some ordered_tuple
  | s :: free_var_indices' =>
      match map_indices_to_position with
      | [] => None
      | p :: map_indices_to_position' =>
          v ← vec_at tuple_with_const p;
          ordered_tuple' ← vec_set ordered_tuple s v;
          order_tuple_by_free_variable_order free_var_indices'
            map_indices_to_position' tuple_with_const ordered_tuple'
      end
  end.

Section generator.

(** [Table::index_is_variable] ([database/table.h]) and the pure virtual
    [SuccessorGenerator::instantiate], which the join strategies implement,
    are parameters.  The join reads the static information, the action
    schema and the state. *)
Variable index_is_variable : Table → nat → bool.
Variable instantiate : DBState → ActionSchema → DBState → Table.

(** Lines 123-128, from column [j] on: the slot ids of the variable columns
    and their positions. *)
Fixpoint variable_columns_from (t : Table) (j : nat) (columns : list Z)
  : list Z * list Z :=
  match columns with
  | [] => ([], [])
  | c :: rest =>
      let '(free_var_indices, map_indices_to_position) :=
        variable_columns_from t (S j) rest in
      if index_is_variable t j
      then (c :: free_var_indices, Z.of_nat j :: map_indices_to_position)
      else (free_var_indices, map_indices_to_position)
  end.

Definition compute_map_indices_to_table_positions (instantiations : Table)
  : list Z * list Z :=
  variable_columns_from instantiations 0 (tuple_index instantiations).

(** Lines 75-85: the binding of one row of the join. *)
Definition canonical_tuple (instantiations : Table)
    (tuple_with_const : list Z) : option (list Z) :=
  let '(free_var_indices, map_indices_to_position) :=
    compute_map_indices_to_table_positions instantiations in
  order_tuple_by_free_variable_order free_var_indices
    map_indices_to_position tuple_with_const
    (replicate (length free_var_indices) 0%Z).

(** Lines 61-86: the operators one action schema contributes. *)
Definition applicable_operators_of (g : SuccessorGenerator)
    (state : DBState) (action : ActionSchema)
  : option (list LiftedOperatorId) :=
  skip ← is_trivially_inapplicable state action;
  if skip : bool then Some []
  else if is_ground action then
    applicable ← is_ground_action_applicable g action state;
    Some (if applicable : bool
          then [{| op_get_index := get_index action; get_instantiation := [] |}]
          else [])
  else
    let instantiations := instantiate (static_information g) action state in
    mapM (λ tuple_with_const,
            ordered_tuple ← canonical_tuple instantiations tuple_with_const;
            Some {| op_get_index := get_index action;
                    get_instantiation := ordered_tuple |})
         (tuples instantiations).

Fixpoint get_applicable_actions (g : SuccessorGenerator)
    (actions : list ActionSchema) (state : DBState)
  : option (list LiftedOperatorId) :=
  match actions with
  | [] => Some []
  | action :: rest =>
      ops ← applicable_operators_of g state action;
      ops' ← get_applicable_actions g rest state;
      Some (ops ++ ops')
  end.

End generator.

(** ** The heuristic factory *)

Inductive Heuristic := BlindHeuristic | Goalcount.

(** A [Heuristic *]: the null pointer or a freshly allocated object. *)
Inductive HeuristicPtr := nullptr | new_ (h : Heuristic).

(** [std::toupper] in the classic locale. *)
Definition to_upper (c : ascii) : ascii :=
  let n := nat_of_ascii c in
  if (97 <=? n) && (n <=? 122) then ascii_of_nat (n - 32) else c.

(** [boost::iequals]: equal lengths and equal characters up to case. *)
Fixpoint iequals (a b : string) : bool :=
  match a, b with
  | EmptyString, EmptyString => true
  | String x a', String y b' =>
      bool_decide (to_upper x = to_upper y) && iequals a' b'
  | _, _ => false
  end.

(** [HeuristicFactory::new_heuristic]: the line written to [std::cout] and
    the pointer returned. *)
Definition new_heuristic (method : string) : string * HeuristicPtr :=
  ("Creating search factory...",
   if iequals method "blind" then new_ BlindHeuristic
   else if iequals method "goalcount" then new_ Goalcount
   else nullptr).

(** A name the factory knows. *)
Definition known_method (method : string) : Prop :=
  iequals method "blind" = true ∨ iequals method "goalcount" = true.

(** ** Conditions and notions used in the statements *)

(** The effect vector holds [true] at position [j], counted from [i]. *)
Definition effect_at (effects : list bool) (i j : nat) : Prop :=
  i ≤ j ∧ effects !! (j - i) = Some true.

(** The slot ids the canonical order is computed from: those of the
    variable columns, from left to right. *)
Definition free_var_indices (index_is_variable : Table → nat → bool)
    (t : Table) : list Z :=
  (compute_map_indices_to_table_positions index_is_variable t).1.

(** [relations[i].predicate_symbol == i]. *)
Definition relations_wf (rels : list Relation) : Prop :=
  ∀ i r, rels !! i = Some r → rel_predicate_symbol r = Z.of_nat i.

(** What the guarded insertion does to the set. *)
Definition insert_if_absent (ga : list Z) (ts : gset (list Z))
  : gset (list Z) :=
  if decide (ga ∈ ts) then ts else insert_atom ga ts.

(** The loop body of [is_ground_action_applicable] runs on [precond]
    without leaving the vectors and without a failed assertion: the
    arguments are constants and the predicate has a relation in the state
    and in the static information. *)
Definition checkable (g : SuccessorGenerator) (state : DBState)
    (precond : Atom) : Prop :=
  Forall (λ arg, constant arg = true) (arguments precond) ∧
  is_Some (get_tuples_of_relation state (predicate_symbol precond)) ∧
  is_Some (get_tuples_from_static_relation g (predicate_symbol precond)).

(** An effect of a ground action that can be applied to [n] relations: its
    predicate has a relation and its arguments are constants. *)
Definition ground_effect_defined (n : nat) (eff : Atom) : Prop :=
  (0 ≤ predicate_symbol eff < Z.of_nat n)%Z ∧
  is_Some (ground_effect_atom eff).

(** An effect of a lifted action that can be applied under the
    instantiation [tuple]: its predicate has a relation, its variables have
    an entry in [tuple], and no argument resolves to [-1]. *)
Definition lifted_effect_defined (n : nat) (tuple : list Z) (eff : Atom)
  : Prop :=
  (0 ≤ predicate_symbol eff < Z.of_nat n)%Z ∧
  ∃ ga, resolve_arguments tuple eff = Some ga ∧ (-1)%Z ∉ ga.

(** The call [generate_successors(op, action, state)] stays within the
    vectors and passes the assertions. *)
Definition successor_defined (op : LiftedOperatorId) (action : ActionSchema)
    (state : DBState) : Prop :=
  (∀ k, get_negative_nullary_effects action !! k = Some true →
        k < length (get_nullary_atoms state)) ∧
  (∀ k, get_positive_nullary_effects action !! k = Some true →
        k < length (get_nullary_atoms state)) ∧
  relations_wf (get_relations state) ∧
  if is_ground action
  then Forall (ground_effect_defined (length (get_relations state)))
         (get_effects action)
  else Forall (lifted_effect_defined (length (get_relations state))
                 (get_instantiation op))
         (get_effects action).

(** ** Sample inputs *)

Definition sample_t1 : Table :=
  {| tuples := [[1; 2]; [3; 4]; [1; 5]; [1; 2]]%Z; tuple_index := [0; 1]%Z |}.

Definition sample_t2 : Table :=
  {| tuples := [[9; 1]; [8; 7]]%Z; tuple_index := [2; 0]%Z |}.

Definition sample_t3 : Table :=
  {| tuples := [[9; 1]; [8; 7]]%Z; tuple_index := [2; 3]%Z |}.

(** A table whose only column is a constant column. *)
Definition constant_column_table : Table :=
  {| tuples := [[0]]%Z; tuple_index := [-1]%Z |}.

(** The same column, without rows. *)
Definition constant_column_no_rows : Table :=
  {| tuples := []; tuple_index := [-1]%Z |}.

(** The table with the columns [v1, v0] and the row [5, 3]. *)
Definition sample_columns_v1_v0 : Table :=
  {| tuples := [[5; 3]]%Z; tuple_index := [1; 0]%Z |}.

(** Two nullary facts; the second one, [handempty], is deleted and added. *)
Definition sample_handempty : ActionSchema :=
  {| get_index := 0; is_ground := true;
     get_precondition := []; get_effects := [];
     get_positive_nullary_precond := [false; false];
     get_negative_nullary_precond := [false; false];
     get_positive_nullary_effects := [false; true];
     get_negative_nullary_effects := [true; true] |}.

Definition sample_generator : SuccessorGenerator :=
  {| static_information :=
       {| get_relations := [mkRelation 0 ∅; mkRelation 1 ∅];
          get_nullary_atoms := [] |};
     obj_per_type := [[0; 1; 2; 4; 6; 7]%Z];
     is_predicate_static := [false; false];
     ground_atom := [] |}.

Definition sample_state : DBState :=
  {| get_relations := [mkRelation 0 ∅; mkRelation 1 {[ [1; 2]%Z ]}];
     get_nullary_atoms := [true; false] |}.

(** The effect [p0(?x0, c7)]. *)
Definition sample_effect : Atom :=
  {| predicate_symbol := 0;
     arguments := [mkArgument 0 false; mkArgument 7 true];
     negated := false |}.

(** The precondition [not p0(c1)] and the ground action that has it. *)
Definition sample_negated_precondition : Atom :=
  {| predicate_symbol := 0; arguments := [mkArgument 1 true];
     negated := true |}.

Definition sample_ground_action : ActionSchema :=
  {| get_index := 3; is_ground := true;
     get_precondition := [sample_negated_precondition];
     get_effects := [];
     get_positive_nullary_precond := [false; false];
     get_negative_nullary_precond := [false; false];
     get_positive_nullary_effects := [false; false];
     get_negative_nullary_effects := [false; false] |}.

(** The lifted action with the effects [p0(?x0, c7)] and [not p1(c1, c2)]. *)
Definition sample_lifted_action : ActionSchema :=
  {| get_index := 5; is_ground := false;
     get_precondition := [];
     get_effects :=
       [sample_effect;
        {| predicate_symbol := 1;
           arguments := [mkArgument 1 true; mkArgument 2 true];
           negated := true |}];
     get_positive_nullary_precond := [false; false];
     get_negative_nullary_precond := [false; false];
     get_positive_nullary_effects := [false; true];
     get_negative_nullary_effects := [true; true] |}.

Definition sample_operator : LiftedOperatorId :=
  {| op_get_index := 5; get_instantiation := [4]%Z |}.

(** A join that answers every query with the same table of one column. *)
Definition sample_instantiate (static : DBState) (action : ActionSchema)
    (state : DBState) : Table :=
  {| tuples := [[4]; [6]]%Z; tuple_index := [0]%Z |}.

(** ** Further notions used in the statements *)

(** What [semi_join] does with a row of [t1]: it stays when there is
    nothing to match on, and otherwise when a row of [t2] agrees with it. *)
Definition keptb (ms : list (nat * nat)) (rows : list (list Z))
    (r : list Z) : bool :=
  match ms with
  | [] => true
  | _ :: _ => has_witnessb ms rows r
  end.

(** The rows [semi_join t1 t2] leaves in [t1] when both tables are well
    formed. *)
Definition kept_rows (t1 t2 : Table) : list (list Z) :=
  filter (λ r, keptb (compute_matches t1 t2) (tuples t2) r = true)
         (tuples t1).

(** The literal [tuple], negated or not, against the relation the ground
    applicability check consults: the relation of the state when it has a
    tuple, else the static relation when that has a tuple; with both empty
    no literal holds. *)
Definition literal_holds (ts sts : gset (list Z)) (tuple : list Z)
    (neg : bool) : Prop :=
  ∃ consulted : gset (list Z),
    (ts ≠ ∅ ∧ consulted = ts ∨ ts = ∅ ∧ sts ≠ ∅ ∧ consulted = sts) ∧
    (tuple ∈ consulted ↔ neg = false).

(** A nullary precondition of the action is violated at position [k]. *)
Definition nullary_violation (state : DBState) (action : ActionSchema)
    (k : nat) : Prop :=
  k < length (get_positive_nullary_precond action) ∧
  (get_positive_nullary_precond action !! k = Some true ∧
   get_nullary_atoms state !! k = Some false ∨
   get_negative_nullary_precond action !! k = Some true ∧
   get_nullary_atoms state !! k = Some true).

(** The effect [eff] concerns the ground atom [ga] of predicate [p] under
    the instantiation [tuple]. *)
Definition touches (tuple : list Z) (p : Z) (ga : list Z) (eff : Atom)
  : Prop :=
  predicate_symbol eff = p ∧ resolve_arguments tuple eff = Some ga.

(** The value [tuple_to_atom] pushes for one argument. *)
Definition argument_value (tuple : list Z) (a : Argument) : option Z :=
  if constant a then Some (index a) else vec_at tuple (index a).

(** An effect whose arguments are constants, none of them [-1]. *)
Definition constant_effect (eff : Atom) : Prop :=
  Forall (λ a, constant a = true ∧ index a ≠ (-1)%Z) (arguments eff).

(** The row [row] of the table [t] gives the value [v] to the variable
    slot [s]. *)
Definition column_value (index_is_variable : Table → nat → bool)
    (t : Table) (row : list Z) (s v : Z) : Prop :=
  ∃ p, tuple_index t !! p = Some s ∧ index_is_variable t p = true ∧
       row !! p = Some v.

(** ** The constructor of the generator *)

(** Modelled from the spec: the declarations of [Object] and [Task] are
    missing.  An object is an index with the types it belongs to; of the
    task the constructor reads the static information, the type names and
    the objects. *)
Record Object := mkObject {
  getIndex : Z;
  getTypes : list Z
}.

Record Task := mkTask {
  get_static_info : DBState;
  type_names : list string;
  objects : list Object
}.

(** [obj_per_type[type].push_back(index)]. *)
Definition push_object (obj_per_type : list (list Z)) (type index : Z)
  : option (list (list Z)) :=
  objs ← vec_at obj_per_type type;
  vec_set obj_per_type type (objs ++ [index]).

(** Lines 19-21: the loop over the types of one object. *)
Fixpoint push_types (types : list Z) (index : Z)
    (obj_per_type : list (list Z)) : option (list (list Z)) :=
  match types with
  | [] => Some obj_per_type
  | type :: rest =>
      obj_per_type' ← push_object obj_per_type type index;
      push_types rest index obj_per_type'
  end.

(** Lines 18-22: the loop over the objects. *)
Fixpoint push_objects (objs : list Object) (obj_per_type : list (list Z))
  : option (list (list Z)) :=
  match objs with
  | [] => Some obj_per_type
  | obj :: rest =>
      obj_per_type' ← push_types (getTypes obj) (getIndex obj) obj_per_type;
      push_objects rest obj_per_type'
  end.

(** [SuccessorGenerator::SuccessorGenerator]: the generator a task gives,
    with an empty scratch atom. *)
Definition new_SuccessorGenerator (task : Task) : option SuccessorGenerator :=
  obj_per_type ←
    push_objects (objects task) (replicate (length (type_names task)) []);
  Some {| static_information := get_static_info task;
          obj_per_type := obj_per_type;
          is_predicate_static :=
            compute_is_predicate_static (get_static_info task);
          ground_atom := [] |}.

(** The object index [x] is listed under the type [type]. *)
Definition listed (obj_per_type : list (list Z)) (type x : Z) : Prop :=
  ∃ objs, vec_at obj_per_type type = Some objs ∧ x ∈ objs.

(** ** Sample inputs, continued *)

(** Two columns carrying the same slot id, with a row that disagrees with
    itself and a row that does not. *)
Definition sample_repeated_columns : Table :=
  {| tuples := [[1; 2]; [3; 3]]%Z; tuple_index := [0; 0]%Z |}.

Definition sample_t4 : Table :=
  {| tuples := [[1; 0]; [3; 0]]%Z; tuple_index := [0; 5]%Z |}.

Definition sample_short_rows : Table :=
  {| tuples := [[1; 2]; []]%Z; tuple_index := [0; 1]%Z |}.

(** A nullary fact, with only its positive and negative precondition
    vectors filled: the second fact is required false. *)
Definition sample_negative_precond : ActionSchema :=
  {| get_index := 1; is_ground := true;
     get_precondition := []; get_effects := [];
     get_positive_nullary_precond := [false; false];
     get_negative_nullary_precond := [false; true];
     get_positive_nullary_effects := [false; false];
     get_negative_nullary_effects := [false; false] |}.

(** A state in which the second nullary fact is true. *)
Definition sample_state_handempty : DBState :=
  {| get_relations := [mkRelation 0 ∅; mkRelation 1 {[ [1; 2]%Z ]}];
     get_nullary_atoms := [true; true] |}.

(** A state whose relation [p0] has a tuple, and a generator whose static
    relation [p0] has another one. *)
Definition sample_state_p0 : DBState :=
  {| get_relations := [mkRelation 0 {[ [2]%Z ]}; mkRelation 1 ∅];
     get_nullary_atoms := [true; false] |}.

Definition sample_generator_static_p0 : SuccessorGenerator :=
  {| static_information :=
       {| get_relations := [mkRelation 0 {[ [1]%Z ]}; mkRelation 1 ∅];
          get_nullary_atoms := [] |};
     obj_per_type := [[0; 1; 2]%Z];
     is_predicate_static := [true; false];
     ground_atom := [] |}.

(** The precondition [p0(c1)] and the ground action that has it. *)
Definition sample_positive_precondition : Atom :=
  {| predicate_symbol := 0; arguments := [mkArgument 1 true];
     negated := false |}.

Definition sample_ground_action_p0 : ActionSchema :=
  {| get_index := 4; is_ground := true;
     get_precondition := [sample_positive_precondition];
     get_effects := [];
     get_positive_nullary_precond := [false; false];
     get_negative_nullary_precond := [false; false];
     get_positive_nullary_effects := [false; false];
     get_negative_nullary_effects := [false; false] |}.

(** The ground action with the effects [p1(c3, c4)] and [not p1(c1, c2)]. *)
Definition sample_ground_effects : ActionSchema :=
  {| get_index := 6; is_ground := true;
     get_precondition := [];
     get_effects :=
       [{| predicate_symbol := 1;
           arguments := [mkArgument 3 true; mkArgument 4 true];
           negated := false |};
        {| predicate_symbol := 1;
           arguments := [mkArgument 1 true; mkArgument 2 true];
           negated := true |}];
     get_positive_nullary_precond := [false; false];
     get_negative_nullary_precond := [false; false];
     get_positive_nullary_effects := [false; false];
     get_negative_nullary_effects := [false; false] |}.

(** The effects [p0(?x0, c7)] and [not p0(?x0, c7)], in the two orders. *)
Definition sample_delete_effect : Atom :=
  {| predicate_symbol := 0;
     arguments := [mkArgument 0 false; mkArgument 7 true];
     negated := true |}.

(** The join table of an action is fit for the canonical order: its rows
    are as long as its columns, and its variable columns carry distinct
    slot ids below their number. *)
Definition join_table_wf (index_is_variable : Table → nat → bool)
    (t : Table) : Prop :=
  table_wf t ∧
  NoDup (free_var_indices index_is_variable t) ∧
  ∀ s, s ∈ free_var_indices index_is_variable t →
       (0 ≤ s < Z.of_nat (length (free_var_indices index_is_variable t)))%Z.

(** The operator [op] is one that [action] contributes in [state]. *)
Definition operator_of (index_is_variable : Table → nat → bool)
    (instantiate : DBState → ActionSchema → DBState → Table)
    (g : SuccessorGenerator) (state : DBState) (action : ActionSchema)
    (op : LiftedOperatorId) : Prop :=
  op_get_index op = get_index action ∧
  is_trivially_inapplicable state action = Some false ∧
  if is_ground action
  then get_instantiation op = [] ∧
       is_ground_action_applicable g action state = Some true
  else ∃ row,
         row ∈ tuples (instantiate (static_information g) action state) ∧
         canonical_tuple index_is_variable
           (instantiate (static_information g) action state) row
           = Some (get_instantiation op).

(** The columns [v0, c, v1] with the row [3, 7, 5]: the assignment of
    [sample_columns_v1_v0] in another order and with a constant column. *)
Definition sample_columns_v0_c_v1 : Table :=
  {| tuples := [[3; 7; 5]]%Z; tuple_index := [0; -8; 1]%Z |}.

(** Three objects over two types; the static relation [p0] has a tuple. *)
Definition sample_task : Task :=
  {| get_static_info :=
       {| get_relations := [mkRelation 0 {[ [1]%Z ]}; mkRelation 1 ∅];
          get_nullary_atoms := [] |};
     type_names := ["object"; "block"];
     objects := [mkObject 0 [0]%Z; mkObject 1 [0; 1]%Z; mkObject 2 [1]%Z] |}.

(** * Properties *)

(** ** Properties of the semi-join *)

Section semi_join_facts.
Implicit Types (t : Table) (r : list Z) (ms : list (nat * nat)).

Lemma elem_of_matches_in_row t1 t2 i i' j :
  (i', j) ∈ matches_in_row t1 t2 i ↔
  i' = i ∧ j < length (tuple_index t2) ∧
  tuple_index t1 !! i = tuple_index t2 !! j.
Proof.
  unfold matches_in_row. rewrite list_elem_of_In, in_flat_map. split.
  - intros (k & Hk & Hin). apply in_seq in Hk.
    case_bool_decide as Heq; simpl in Hin; [|done].
    destruct Hin as [[= <- <-]|[]]. repeat split; [lia | done].
  - intros (-> & Hj & Heq). exists j. split; [apply in_seq; lia|].
    rewrite bool_decide_eq_true_2 by done. by left.
Qed.

Lemma elem_of_compute_matches t1 t2 i j :
  (i, j) ∈ compute_matches t1 t2 ↔
  i < length (tuple_index t1) ∧ j < length (tuple_index t2) ∧
  tuple_index t1 !! i = tuple_index t2 !! j.
Proof.
  unfold compute_matches. rewrite list_elem_of_In, in_flat_map. split.
  - intros (k & Hk & Hin). apply in_seq in Hk.
    apply list_elem_of_In, elem_of_matches_in_row in Hin as (-> & ? & ?).
    repeat split; [lia | done..].
  - intros (Hi & Hj & Heq). exists i. split; [apply in_seq; lia|].
    apply list_elem_of_In, elem_of_matches_in_row. done.
Qed.

Lemma in_range_cons m ms r r' :
  in_range (m :: ms) r r' →
  m.1 < length r ∧ m.2 < length r' ∧ in_range ms r r'.
Proof.
  intros H. destruct m as [i j].
  destruct (H i j) as [? ?]; [apply list_elem_of_here|].
  split; [done|]. split; [done|].
  intros i' j' Hin. apply H. by apply list_elem_of_further.
Qed.

Lemma in_range_compute_matches ta tb r r' :
  length r = length (tuple_index ta) →
  length r' = length (tuple_index tb) →
  in_range (compute_matches ta tb) r r'.
Proof.
  intros Hr Hr' i j Hin. apply elem_of_compute_matches in Hin. lia.
Qed.

Lemma tuples_match_spec ms r r' :
  in_range ms r r' → tuples_match ms r r' = Some (agree_onb ms r r').
Proof.
  induction ms as [|m ms IH]; intros Hr; [done|].
  apply in_range_cons in Hr as (Hi & Hj & Hr). simpl.
  destruct (lookup_lt_is_Some_2 _ _ Hi) as [a Ha].
  destruct (lookup_lt_is_Some_2 _ _ Hj) as [b Hb].
  rewrite Ha, Hb. simpl. rewrite IH by done.
  repeat case_bool_decide; simplify_eq; done.
Qed.

Lemma agree_onb_true ms r r' :
  in_range ms r r' → agree_onb ms r r' = true ↔ agree_on ms r r'.
Proof.
  intros Hr. unfold agree_onb, agree_on. rewrite forallb_forall. split.
  - intros H i j Hin. destruct (Hr i j Hin) as [Hi _].
    destruct (lookup_lt_is_Some_2 _ _ Hi) as [a Ha]. exists a.
    apply list_elem_of_In, H in Hin. apply bool_decide_eq_true in Hin.
    simpl in Hin. split; [done|congruence].
  - intros H [i j] Hin. apply list_elem_of_In, H in Hin as (v & Hv & Hv').
    apply bool_decide_eq_true. simpl. congruence.
Qed.

Lemma has_match_spec ms r rows :
  Forall (in_range ms r) rows →
  has_match ms r rows = Some (has_witnessb ms rows r).
Proof.
  induction 1 as [|r' rows Hr _ IH]; [done|]. simpl.
  rewrite tuples_match_spec by done. simpl.
  destruct (agree_onb ms r r'); [done|]. by rewrite IH.
Qed.

Lemma has_witnessb_true ms r rows :
  Forall (in_range ms r) rows →
  has_witnessb ms rows r = true ↔ has_witness ms rows r.
Proof.
  intros Hall. unfold has_witnessb, has_witness. rewrite existsb_exists.
  rewrite Forall_forall in Hall.
  split; intros (r' & Hin & Hag); exists r'.
  - apply list_elem_of_In in Hin. split; [done|].
    by apply agree_onb_true; [apply Hall|].
  - split; [by apply list_elem_of_In|].
    by apply agree_onb_true; [apply Hall|].
Qed.

Lemma join_tuples_spec ms rows rows' :
  Forall (λ r, Forall (in_range ms r) rows') rows →
  join_tuples ms rows rows' =
    Some (filter (λ r, has_witnessb ms rows' r = true) rows).
Proof.
  induction 1 as [|r rows Hr _ IH]; [done|]. simpl.
  rewrite has_match_spec, IH by done. simpl.
  rewrite filter_cons. destruct (has_witnessb ms rows' r); by case_decide.
Qed.

Lemma in_range_tables ta tb :
  table_wf ta → table_wf tb →
  Forall (λ r, Forall (in_range (compute_matches ta tb) r) (tuples tb))
         (tuples ta).
Proof.
  unfold table_wf. intros Ha Hb.
  apply Forall_forall; intros r Hr. apply Forall_forall; intros r' Hr'.
  apply in_range_compute_matches.
  - by apply (proj1 (Forall_forall _ _) Ha).
  - by apply (proj1 (Forall_forall _ _) Hb).
Qed.

Lemma matching_pair_tags ta tb i j :
  (i, j) ∈ compute_matches ta tb →
  ∃ s, tuple_index ta !! i = Some s ∧ tuple_index tb !! j = Some s.
Proof.
  intros (Hi & _ & Heq)%elem_of_compute_matches.
  destruct (lookup_lt_is_Some_2 _ _ Hi) as [s Hs]. exists s.
  split; [done|congruence].
Qed.

(** The semi-join of well-formed tables is a filter of the rows of the
    first one. *)
Lemma semi_join_filter ta tb :
  table_wf ta → table_wf tb → compute_matches ta tb ≠ [] →
  semi_join ta tb =
    Some {| tuples := filter (λ r, has_witnessb (compute_matches ta tb)
                                     (tuples tb) r = true) (tuples ta);
            tuple_index := tuple_index ta |}.
Proof.
  intros Ha Hb Hne. unfold semi_join.
  destruct (compute_matches ta tb) as [|m ms] eqn:Hms; [done|].
  rewrite <- Hms. rewrite join_tuples_spec; [done|].
  by apply in_range_tables.
Qed.

Lemma count_row_filter (P : list Z → Prop) `{∀ r, Decision (P r)} r rows :
  P r → count_row r (filter P rows) = count_row r rows.
Proof.
  intros HP. unfold count_row. induction rows as [|r' rows IH]; [done|].
  rewrite !filter_cons. destruct (decide (P r')) as [HP'|HP'].
  - rewrite filter_cons. case_decide; simpl; by rewrite IH.
  - case_decide; [by subst|done].
Qed.

End semi_join_facts.

Example semi_join_sample :
  semi_join sample_t1 sample_t2 =
    Some {| tuples := [[1; 2]; [1; 5]; [1; 2]]%Z; tuple_index := [0; 1]%Z |}.
Proof. reflexivity. Qed.

(** A row shorter than the columns it is matched on is read out of bounds. *)
Example semi_join_short_row :
  semi_join {| tuples := [[1; 2]; []]%Z; tuple_index := [0; 1]%Z |} sample_t2
  = None.
Proof. reflexivity. Qed.

(** *** Claims on the semi-join *)

(** C2. When at least one pair of columns matches, every row that
    [semi_join] keeps in [t1] agrees with some row of [t2] on all matching
    columns, and every row of [t1] that it drops agrees with none. *)
Theorem semi_join_sound_complete ta tb :
  table_wf ta → table_wf tb → compute_matches ta tb ≠ [] →
  ∃ ta', semi_join ta tb = Some ta' ∧
    (∀ r, r ∈ tuples ta' →
          has_witness (compute_matches ta tb) (tuples tb) r) ∧
    (∀ r, r ∈ tuples ta → r ∉ tuples ta' →
          ¬ has_witness (compute_matches ta tb) (tuples tb) r).
Proof.
  intros Ha Hb Hne. eexists. split; [by apply semi_join_filter|]. simpl.
  assert (Hrange : ∀ r, r ∈ tuples ta →
            Forall (in_range (compute_matches ta tb) r) (tuples tb)).
  { intros r Hr.
    by apply (proj1 (Forall_forall _ _) (in_range_tables ta tb Ha Hb)). }
  split.
  - intros r [Hkeep Hr]%list_elem_of_filter.
    by apply has_witnessb_true; [apply Hrange|].
  - intros r Hr Hdrop Hwit. apply Hdrop, list_elem_of_filter.
    split; [|done]. by apply has_witnessb_true; [apply Hrange|].
Qed.

Lemma semi_join_sound_complete_witness :
  table_wf sample_t1 ∧ table_wf sample_t2 ∧
  compute_matches sample_t1 sample_t2 ≠ [] ∧
  ∃ ta', semi_join sample_t1 sample_t2 = Some ta' ∧
    (∀ r, r ∈ tuples ta' →
          has_witness (compute_matches sample_t1 sample_t2)
            (tuples sample_t2) r) ∧
    (∀ r, r ∈ tuples sample_t1 → r ∉ tuples ta' →
          ¬ has_witness (compute_matches sample_t1 sample_t2)
              (tuples sample_t2) r).
Proof.
  assert (H1 : table_wf sample_t1) by (repeat constructor).
  assert (H2 : table_wf sample_t2) by (repeat constructor).
  assert (H3 : compute_matches sample_t1 sample_t2 ≠ [])
    by (vm_compute; discriminate).
  split; [exact H1|]. split; [exact H2|]. split; [exact H3|].
  exact (semi_join_sound_complete sample_t1 sample_t2 H1 H2 H3).
Defined.

(** C3, as the code has it.  A pair of positions is a matching pair exactly
    when the two columns carry the same entry of [tuple_index]; whether the
    entry is a variable slot id or the mark of a constant is not looked
    at. *)
Theorem matching_pair_by_tag ta tb i j :
  (i, j) ∈ compute_matches ta tb ↔
  ∃ s, tuple_index ta !! i = Some s ∧ tuple_index tb !! j = Some s.
Proof.
  rewrite elem_of_compute_matches. split.
  - intros (Hi & _ & Heq).
    destruct (lookup_lt_is_Some_2 _ _ Hi) as [s Hs]. exists s.
    split; [done|congruence].
  - intros (s & Hi & Hj). split; [by eapply lookup_lt_Some|].
    split; [by eapply lookup_lt_Some|congruence].
Qed.

(** Whatever [index_is_variable] is, a constant column matches itself when a
    table is joined with a table of the same layout. *)
Lemma constant_column_matches_itself (is_var : Table → nat → bool) t c :
  c < length (tuple_index t) → is_var t c = false →
  (c, c) ∈ compute_matches t t ∧ ¬ same_variable_slot is_var t t c c.
Proof.
  intros Hc Hconst. split; [by apply elem_of_compute_matches|].
  intros (s & _ & _ & Hvar & _). congruence.
Qed.

(** C3, as stated, fails: two constant columns with the same tag form a
    matching pair although they share no variable slot. *)
Lemma constant_columns_match :
  (0, 0) ∈ compute_matches constant_column_table constant_column_table ∧
  nonneg_is_variable constant_column_table 0 = false ∧
  ¬ ((0, 0) ∈ compute_matches constant_column_table constant_column_table ↔
     same_variable_slot nonneg_is_variable
       constant_column_table constant_column_table 0 0).
Proof.
  assert (H : (0, 0) ∈ compute_matches constant_column_table
                         constant_column_table).
  { apply elem_of_compute_matches. simpl. split; [lia|]. split; [lia|done]. }
  split; [done|]. split; [done|].
  intros [Hsame _]. destruct (Hsame H) as (s & _ & _ & Hvar & _).
  discriminate Hvar.
Qed.

(** Tables without a common tag have no matching pair. *)
Lemma compute_matches_disjoint ta tb :
  (∀ i j s, tuple_index ta !! i = Some s → tuple_index tb !! j ≠ Some s) →
  compute_matches ta tb = [].
Proof.
  intros Hdis. destruct (compute_matches ta tb) as [|[i j] ms] eqn:Hms; [done|].
  assert (Hin : (i, j) ∈ compute_matches ta tb)
    by (rewrite Hms; apply list_elem_of_here).
  apply matching_pair_tags in Hin as (s & Hi & Hj). by destruct (Hdis i j s).
Qed.

(** C8, as the code has it.  When no column of [t1] carries the same tag
    as a column of [t2], be the tag a variable slot id or the mark of a
    constant, the match list is empty and [semi_join] returns with [t1] as
    it was: the same rows in the same order, whatever their number and
    length, and the same columns. *)
Theorem semi_join_no_match ta tb :
  (∀ i j s, tuple_index ta !! i = Some s → tuple_index tb !! j ≠ Some s) →
  compute_matches ta tb = [] ∧ semi_join ta tb = Some ta.
Proof.
  intros Hdis. pose proof (compute_matches_disjoint ta tb Hdis) as Hms.
  split; [done|]. unfold semi_join. by rewrite Hms.
Qed.

Lemma semi_join_no_match_witness :
  compute_matches sample_t1 sample_t3 = [] ∧
  semi_join sample_t1 sample_t3 = Some sample_t1.
Proof.
  apply (semi_join_no_match sample_t1 sample_t3).
  intros [|[|i]] [|[|j]] s Hi Hj; simpl in Hi, Hj;
    try discriminate Hi; try discriminate Hj; congruence.
Defined.

(** Whatever [index_is_variable] is, a table with rows and with constant
    columns only is emptied by the semi-join with a table of the same
    columns and no rows, although the two share no variable column. *)
Lemma shared_constant_tag_filters (is_var : Table → nat → bool) t :
  tuple_index t ≠ [] → tuples t ≠ [] → (∀ i, is_var t i = false) →
  (∀ i j, ¬ same_variable_slot is_var t
              {| tuples := []; tuple_index := tuple_index t |} i j) ∧
  semi_join t {| tuples := []; tuple_index := tuple_index t |}
    = Some {| tuples := []; tuple_index := tuple_index t |} ∧
  semi_join t {| tuples := []; tuple_index := tuple_index t |} ≠ Some t.
Proof.
  intros Hcols Hrows Hconst.
  assert (Hms : compute_matches t
                  {| tuples := []; tuple_index := tuple_index t |} ≠ []).
  { assert (Hlen : 0 < length (tuple_index t)).
    { destruct (tuple_index t); [done|simpl; lia]. }
    assert (Hin : (0, 0) ∈ compute_matches t
                    {| tuples := []; tuple_index := tuple_index t |}).
    { apply elem_of_compute_matches. simpl. done. }
    intros Hnil. rewrite Hnil in Hin. by apply elem_of_nil in Hin. }
  assert (Heq : semi_join t {| tuples := []; tuple_index := tuple_index t |}
                = Some {| tuples := []; tuple_index := tuple_index t |}).
  { unfold semi_join.
    destruct (compute_matches t _) as [|m ms]; [done|]. simpl.
    assert (Hall : ∀ rows, join_tuples (m :: ms) rows [] = Some []).
    { induction rows as [|r rows IH]; [done|]. simpl. by rewrite IH. }
    by rewrite Hall. }
  split; [|split; [done|]].
  - intros i j (s & _ & _ & Hvar & _). rewrite Hconst in Hvar. done.
  - rewrite Heq. intros [= Ht]. apply Hrows. by rewrite <- Ht.
Qed.

(** C8, as stated, fails: two tables whose only column is the same constant
    column share no variable column, yet the semi-join matches the two
    columns and, the second table having no row, removes the row of the
    first. *)
Lemma semi_join_shared_constant_tag :
  (∀ i j, ¬ same_variable_slot nonneg_is_variable constant_column_table
              constant_column_no_rows i j) ∧
  compute_matches constant_column_table constant_column_no_rows = [(0, 0)] ∧
  semi_join constant_column_table constant_column_no_rows
    = Some constant_column_no_rows ∧
  semi_join constant_column_table constant_column_no_rows
    ≠ Some constant_column_table.
Proof.
  split; [|split; [reflexivity|split; [reflexivity|discriminate]]].
  intros i j (s & Hi & _ & Hvar & _).
  destruct i as [|i]; simpl in Hi; [|discriminate Hi].
  discriminate Hvar.
Qed.

(** C10. When at least one pair of columns matches, the rows of [t1] after
    [semi_join] are a subsequence of the rows before: the order is kept, no
    row is new, and a row that survives occurs as often as before.  The
    columns are unchanged. *)
Theorem semi_join_subsequence ta tb :
  table_wf ta → table_wf tb → compute_matches ta tb ≠ [] →
  ∃ ta', semi_join ta tb = Some ta' ∧
    tuple_index ta' = tuple_index ta ∧
    tuples ta' `sublist_of` tuples ta ∧
    (∀ r, r ∈ tuples ta' → r ∈ tuples ta) ∧
    (∀ r, r ∈ tuples ta' →
          count_row r (tuples ta') = count_row r (tuples ta)).
Proof.
  intros Ha Hb Hne. eexists. split; [by apply semi_join_filter|]. simpl.
  split; [done|]. split; [apply sublist_filter|]. split.
  - by intros r [_ Hr]%list_elem_of_filter.
  - intros r [Hkeep _]%list_elem_of_filter. by apply count_row_filter.
Qed.

Lemma semi_join_subsequence_witness :
  table_wf sample_t1 ∧ table_wf sample_t2 ∧
  compute_matches sample_t1 sample_t2 ≠ [] ∧
  ∃ ta', semi_join sample_t1 sample_t2 = Some ta' ∧
    tuple_index ta' = tuple_index sample_t1 ∧
    tuples ta' `sublist_of` tuples sample_t1 ∧
    (∀ r, r ∈ tuples ta' → r ∈ tuples sample_t1) ∧
    (∀ r, r ∈ tuples ta' →
          count_row r (tuples ta') = count_row r (tuples sample_t1)).
Proof.
  assert (H1 : table_wf sample_t1) by (repeat constructor).
  assert (H2 : table_wf sample_t2) by (repeat constructor).
  assert (H3 : compute_matches sample_t1 sample_t2 ≠ [])
    by (vm_compute; discriminate).
  split; [exact H1|]. split; [exact H2|]. split; [exact H3|].
  exact (semi_join_subsequence sample_t1 sample_t2 H1 H2 H3).
Defined.

(** ** Properties of the heuristic factory *)

Example new_heuristic_blind :
  new_heuristic "Blind" = ("Creating search factory...", new_ BlindHeuristic).
Proof. reflexivity. Qed.

Example new_heuristic_goalcount :
  new_heuristic "GOALCOUNT" = ("Creating search factory...", new_ Goalcount).
Proof. reflexivity. Qed.

(** C9, as the code has it.  The factory returns the null pointer exactly
    for the names that are neither "blind" nor "goalcount" up to case. *)
Theorem new_heuristic_null_iff_unknown method :
  (new_heuristic method).2 = nullptr ↔ ¬ known_method method.
Proof.
  unfold new_heuristic, known_method. simpl.
  destruct (iequals method "blind"), (iequals method "goalcount");
    split; try done; intros H; try (exfalso; apply H; auto; fail).
  all: intros [?|?]; done.
Qed.

(** C9, as stated, fails: a name that is not known yields the null
    pointer. *)
Lemma new_heuristic_astar_null :
  ¬ known_method "astar" ∧ (new_heuristic "astar").2 = nullptr.
Proof. split; [|reflexivity]. intros [H|H]; discriminate H. Qed.

(** ** Properties of the nullary effects *)

Section nullary.
Implicit Types (effects atoms : list bool).

Lemma assign_where_spec effects i b atoms :
  (∀ k, effects !! k = Some true → i + k < length atoms) →
  ∃ atoms', assign_where effects i b atoms = Some atoms' ∧
    length atoms' = length atoms ∧
    ∀ j, atoms' !! j =
         if decide (effect_at effects i j) then Some b else atoms !! j.
Proof.
  revert i atoms. induction effects as [|e rest IH]; intros i atoms Hrange.
  { exists atoms. repeat split. intros j. case_decide as H; [|done].
    destruct H as [_ H]. by rewrite lookup_nil in H. }
  simpl. destruct e.
  - assert (Hi : i < length atoms).
    { specialize (Hrange 0 eq_refl). lia. }
    rewrite decide_True by done. simpl.
    destruct (IH (S i) (<[i := b]> atoms)) as (atoms' & -> & Hlen & Hat).
    { intros k Hk. rewrite length_insert. specialize (Hrange (S k) Hk). lia. }
    exists atoms'. split; [done|]. rewrite length_insert in Hlen.
    split; [done|]. intros j. rewrite Hat. unfold effect_at.
    destruct (decide (j = i)) as [->|Hne].
    + rewrite decide_False by lia. rewrite decide_True.
      * by apply list_lookup_insert_eq.
      * split; [lia|]. by replace (i - i) with 0 by lia.
    + rewrite list_lookup_insert_ne by done.
      destruct (decide (S i ≤ j)) as [Hle|Hgt].
      * replace (j - i) with (S (j - S i)) by lia. simpl.
        repeat case_decide; naive_solver lia.
      * rewrite decide_False by lia. rewrite decide_False by lia. done.
  - simpl.
    destruct (IH (S i) atoms) as (atoms' & -> & Hlen & Hat).
    { intros k Hk. specialize (Hrange (S k) Hk). lia. }
    exists atoms'. split; [done|]. split; [done|].
    intros j. rewrite Hat. unfold effect_at.
    destruct (decide (j = i)) as [->|Hne].
    + rewrite decide_False by lia. rewrite decide_False; [done|].
      replace (i - i) with 0 by lia. simpl. naive_solver.
    + destruct (decide (S i ≤ j)) as [Hle|Hgt].
      * replace (j - i) with (S (j - S i)) by lia. simpl.
        repeat case_decide; naive_solver lia.
      * rewrite decide_False by lia. rewrite decide_False by lia. done.
Qed.

(** The nullary atoms of the successor, position by position: an added
    fact is true whether or not it is also deleted, a fact that is only
    deleted is false, every other fact is as before. *)
Lemma apply_nullary_effects_spec action atoms :
  (∀ k, get_negative_nullary_effects action !! k = Some true →
        k < length atoms) →
  (∀ k, get_positive_nullary_effects action !! k = Some true →
        k < length atoms) →
  ∃ atoms', apply_nullary_effects action atoms = Some atoms' ∧
    length atoms' = length atoms ∧
    ∀ j, atoms' !! j =
         if decide (get_positive_nullary_effects action !! j = Some true)
         then Some true
         else if decide (get_negative_nullary_effects action !! j = Some true)
         then Some false
         else atoms !! j.
Proof.
  intros Hneg Hpos. unfold apply_nullary_effects.
  destruct (assign_where_spec (get_negative_nullary_effects action) 0 false
              atoms) as (atoms1 & -> & Hlen1 & Hat1); [done|]. simpl.
  destruct (assign_where_spec (get_positive_nullary_effects action) 0 true
              atoms1) as (atoms2 & -> & Hlen2 & Hat2).
  { intros k Hk. rewrite Hlen1. by apply Hpos. }
  exists atoms2. split; [done|]. split; [congruence|].
  intros j. rewrite Hat2, Hat1. unfold effect_at.
  replace (j - 0) with j by lia.
  repeat case_decide; naive_solver lia.
Qed.

End nullary.

(** C5. The nullary atoms of a successor are computed in two passes.  The
    first pass clears every fact the action deletes and touches nothing
    else, so after it all deleted facts are false, those the action also
    adds included.  The second pass, run on the cleared vector, sets every
    fact the action adds and touches nothing else.  In the result an added
    fact is therefore true, a fact that is deleted and not added is false,
    every other fact is as before; in particular a fact that the action
    both deletes and adds is true. *)
Theorem add_after_delete action atoms :
  (∀ k, get_negative_nullary_effects action !! k = Some true →
        k < length atoms) →
  (∀ k, get_positive_nullary_effects action !! k = Some true →
        k < length atoms) →
  ∃ cleared atoms',
    assign_where (get_negative_nullary_effects action) 0 false atoms
      = Some cleared ∧
    (∀ j, get_negative_nullary_effects action !! j = Some true →
          cleared !! j = Some false) ∧
    (∀ j, get_negative_nullary_effects action !! j ≠ Some true →
          cleared !! j = atoms !! j) ∧
    assign_where (get_positive_nullary_effects action) 0 true cleared
      = Some atoms' ∧
    (∀ j, get_positive_nullary_effects action !! j = Some true →
          atoms' !! j = Some true) ∧
    (∀ j, get_positive_nullary_effects action !! j ≠ Some true →
          atoms' !! j = cleared !! j) ∧
    apply_nullary_effects action atoms = Some atoms' ∧
    length atoms' = length atoms ∧
    (∀ j, get_negative_nullary_effects action !! j = Some true →
          get_positive_nullary_effects action !! j ≠ Some true →
          atoms' !! j = Some false) ∧
    (∀ j, get_negative_nullary_effects action !! j ≠ Some true →
          get_positive_nullary_effects action !! j ≠ Some true →
          atoms' !! j = atoms !! j) ∧
    (∀ i, get_negative_nullary_effects action !! i = Some true →
          get_positive_nullary_effects action !! i = Some true →
          atoms' !! i = Some true).
Proof.
  intros Hneg Hpos.
  assert (Hat0 : ∀ effects j,
            effect_at effects 0 j ↔ effects !! j = Some true).
  { intros effects j. unfold effect_at. replace (j - 0) with j by lia.
    split; [by intros [_ ?]|]. split; [lia|done]. }
  destruct (assign_where_spec (get_negative_nullary_effects action) 0 false
              atoms) as (cleared & Hc & Hlen1 & Hat1); [done|].
  destruct (assign_where_spec (get_positive_nullary_effects action) 0 true
              cleared) as (atoms' & Hs & Hlen2 & Hat2).
  { intros k Hk. rewrite Hlen1. by apply Hpos. }
  assert (Hcleared : ∀ j,
            get_negative_nullary_effects action !! j = Some true →
            cleared !! j = Some false).
  { intros j Hj. rewrite Hat1. by rewrite decide_True by by apply Hat0. }
  assert (Hkept : ∀ j,
            get_negative_nullary_effects action !! j ≠ Some true →
            cleared !! j = atoms !! j).
  { intros j Hj. rewrite Hat1. rewrite decide_False; [done|].
    by rewrite Hat0. }
  assert (Hset : ∀ j,
            get_positive_nullary_effects action !! j = Some true →
            atoms' !! j = Some true).
  { intros j Hj. rewrite Hat2. by rewrite decide_True by by apply Hat0. }
  assert (Hrest : ∀ j,
            get_positive_nullary_effects action !! j ≠ Some true →
            atoms' !! j = cleared !! j).
  { intros j Hj. rewrite Hat2. rewrite decide_False; [done|].
    by rewrite Hat0. }
  exists cleared, atoms'.
  split; [done|]. split; [done|]. split; [done|]. split; [done|].
  split; [done|]. split; [done|].
  split; [unfold apply_nullary_effects; by rewrite Hc|].
  split; [congruence|]. split; [|split].
  - intros j Hd Ha. rewrite Hrest by done. by apply Hcleared.
  - intros j Hd Ha. rewrite Hrest by done. by apply Hkept.
  - intros i _ Ha. by apply Hset.
Qed.

(** The first fact is deleted only, the second is deleted and added. *)
Lemma add_after_delete_witness :
  ∃ cleared atoms',
    assign_where (get_negative_nullary_effects sample_handempty) 0 false
      [true; false] = Some cleared ∧
    cleared !! 0 = Some false ∧ cleared !! 1 = Some false ∧
    apply_nullary_effects sample_handempty [true; false] = Some atoms' ∧
    atoms' !! 0 = Some false ∧ atoms' !! 1 = Some true.
Proof.
  destruct (add_after_delete sample_handempty [true; false])
    as (cleared & atoms' & Hc & Hcleared & _ & _ & _ & _ & Heq & _ &
        Hdel & _ & Hboth).
  - intros [|[|k]] Hk; simpl; try lia; discriminate Hk.
  - intros [|[|k]] Hk; simpl; try lia; discriminate Hk.
  - exists cleared, atoms'. split; [exact Hc|].
    split; [apply Hcleared; reflexivity|].
    split; [apply Hcleared; reflexivity|].
    split; [exact Heq|].
    split; [apply Hdel; [reflexivity|discriminate]|].
    apply Hboth; reflexivity.
Defined.

Example add_after_delete_sample :
  apply_nullary_effects sample_handempty [true; false] = Some [false; true].
Proof. reflexivity. Qed.

(** ** Properties of the canonical order *)

Lemma vec_at_of_nat {A} (v : list A) (q : nat) :
  vec_at v (Z.of_nat q) = v !! q.
Proof.
  unfold vec_at. rewrite decide_True by lia. by rewrite Nat2Z.id.
Qed.

Lemma vec_at_Some_range {A} (v : list A) (i : Z) (x : A) :
  vec_at v i = Some x → (0 ≤ i < Z.of_nat (length v))%Z.
Proof.
  unfold vec_at. case_decide; [|done]. intros Hx%lookup_lt_Some. lia.
Qed.

Lemma vec_at_vec_set_eq {A} (v v' : list A) (i : Z) (x : A) :
  vec_set v i x = Some v' → vec_at v' i = Some x.
Proof.
  unfold vec_set, vec_at. case_decide as Hi; [|done]. intros [= <-].
  rewrite decide_True by lia. apply list_lookup_insert_eq. lia.
Qed.

Lemma vec_at_vec_set_ne {A} (v v' : list A) (i j : Z) (x : A) :
  vec_set v i x = Some v' → i ≠ j → vec_at v' j = vec_at v j.
Proof.
  unfold vec_set, vec_at. case_decide as Hi; [|done]. intros [= <-] Hne.
  case_decide; [|done]. apply list_lookup_insert_ne. lia.
Qed.

Lemma vec_set_length {A} (v v' : list A) (i : Z) (x : A) :
  vec_set v i x = Some v' → length v' = length v.
Proof.
  unfold vec_set. case_decide; [|done]. intros [= <-]. apply length_insert.
Qed.

Lemma vec_set_is_Some {A} (v : list A) (i : Z) (x : A) :
  (0 ≤ i < Z.of_nat (length v))%Z → ∃ v', vec_set v i x = Some v'.
Proof. intros Hi. unfold vec_set. rewrite decide_True by done. eauto. Qed.

(** The loop of [order_tuple_by_free_variable_order] on distinct slot ids
    that fit the ordered tuple and positions that fit the row. *)
Lemma order_tuple_spec (fvi mitp row ordered : list Z) :
  length fvi = length mitp →
  NoDup fvi →
  (∀ s, s ∈ fvi → (0 ≤ s < Z.of_nat (length ordered))%Z) →
  (∀ p, p ∈ mitp → is_Some (vec_at row p)) →
  ∃ ordered',
    order_tuple_by_free_variable_order fvi mitp row ordered = Some ordered' ∧
    length ordered' = length ordered ∧
    (∀ k s p, fvi !! k = Some s → mitp !! k = Some p →
              vec_at ordered' s = vec_at row p) ∧
    (∀ s, s ∉ fvi → vec_at ordered' s = vec_at ordered s).
Proof.
  revert mitp ordered.
  induction fvi as [|s fvi IH]; intros mitp ordered Hlen Hnd Hslot Hpos.
  { exists ordered. split; [done|]. split; [done|]. split; [|done].
    intros k s p Hk. by rewrite lookup_nil in Hk. }
  destruct mitp as [|p mitp]; [done|]. simpl.
  apply NoDup_cons in Hnd as [Hs Hnd].
  destruct (Hpos p) as [v Hv]; [apply list_elem_of_here|]. rewrite Hv. simpl.
  destruct (vec_set_is_Some ordered s v) as [ordered1 Hset].
  { apply Hslot, list_elem_of_here. }
  rewrite Hset. simpl.
  pose proof (vec_set_length _ _ _ _ Hset) as Hlen1.
  destruct (IH mitp ordered1) as (ordered' & Heq & Hlen' & Hin & Hout).
  - simpl in Hlen. lia.
  - done.
  - intros s' Hs'. rewrite Hlen1. by apply Hslot, list_elem_of_further.
  - intros p' Hp'. by apply Hpos, list_elem_of_further.
  - exists ordered'. split; [done|]. split; [congruence|]. split.
    + intros [|k] s' p' Hk Hk'; simpl in Hk, Hk'.
      * simplify_eq. rewrite Hout by done. rewrite Hv.
        by eapply vec_at_vec_set_eq.
      * by eapply Hin.
    + intros s' Hs'. apply not_elem_of_cons in Hs' as [Hne Hs'].
      rewrite Hout by done. by eapply vec_at_vec_set_ne.
Qed.

Section canonical.
Variable index_is_variable : Table → nat → bool.

Lemma variable_columns_from_spec t j columns :
  let vc := variable_columns_from index_is_variable t j columns in
  length vc.1 = length vc.2 ∧
  (∀ k s p, vc.1 !! k = Some s → vc.2 !! k = Some p →
     ∃ q, p = Z.of_nat q ∧ j ≤ q ∧ columns !! (q - j) = Some s ∧
          index_is_variable t q = true) ∧
  (∀ q s, j ≤ q → columns !! (q - j) = Some s →
          index_is_variable t q = true →
     ∃ k, vc.1 !! k = Some s ∧ vc.2 !! k = Some (Z.of_nat q)).
Proof.
  revert j. induction columns as [|c rest IH]; intros j; simpl.
  { split; [done|]. split; [by intros k s p Hk|]. intros q s _ Hq.
    by rewrite lookup_nil in Hq. }
  specialize (IH (S j)). simpl in IH.
  destruct (variable_columns_from index_is_variable t (S j) rest)
    as [fvi mitp] eqn:Hvc. simpl in IH.
  destruct IH as (Hlen & Hsound & Hcomplete).
  assert (Hshift : ∀ q, S j ≤ q → (c :: rest) !! (q - j) = rest !! (q - S j)).
  { intros q Hq. by replace (q - j) with (S (q - S j)) by lia. }
  destruct (index_is_variable t j) eqn:Hvar; simpl.
  - split; [by rewrite Hlen|]. split.
    + intros [|k] s p Hk Hk'; simpl in Hk, Hk'.
      * simplify_eq. exists j. replace (j - j) with 0 by lia. done.
      * destruct (Hsound k s p Hk Hk') as (q & -> & Hq & Hc & Hv).
        exists q. rewrite Hshift by done. split; [done|].
        split; [lia|done].
    + intros q s Hq Hc Hv. destruct (decide (q = j)) as [->|Hne].
      * exists 0. replace (j - j) with 0 in Hc by lia. simpl in Hc.
        by simplify_eq.
      * rewrite Hshift in Hc by lia.
        destruct (Hcomplete q s) as (k & Hk & Hk'); [lia|done..|].
        by exists (S k).
  - split; [done|]. split.
    + intros k s p Hk Hk'.
      destruct (Hsound k s p Hk Hk') as (q & -> & Hq & Hc & Hv).
      exists q. rewrite Hshift by done. split; [done|].
      split; [lia|done].
    + intros q s Hq Hc Hv. destruct (decide (q = j)) as [->|Hne].
      * congruence.
      * rewrite Hshift in Hc by lia. apply Hcomplete; [lia|done..].
Qed.

(** A slot id is recorded exactly when a variable column carries it. *)
Lemma elem_of_free_var_indices t s :
  s ∈ free_var_indices index_is_variable t ↔
  ∃ p, tuple_index t !! p = Some s ∧ index_is_variable t p = true.
Proof.
  unfold free_var_indices, compute_map_indices_to_table_positions.
  pose proof (variable_columns_from_spec t 0 (tuple_index t))
    as (Hlen & Hsound & Hcomplete). simpl in *.
  split.
  - intros (k & Hk)%list_elem_of_lookup.
    destruct (lookup_lt_is_Some_2
      (variable_columns_from index_is_variable t 0 (tuple_index t)).2 k)
      as [p Hp].
    { rewrite <- Hlen. by eapply lookup_lt_Some. }
    destruct (Hsound k s p Hk Hp) as (q & _ & _ & Hc & Hv).
    exists q. by replace (q - 0) with q in Hc by lia.
  - intros (p & Hp & Hv). destruct (Hcomplete p s) as (k & Hk & _).
    + lia.
    + by replace (p - 0) with p by lia.
    + done.
    + apply list_elem_of_lookup. eauto.
Qed.

End canonical.

Section canonical_claim.
Variable index_is_variable : Table → nat → bool.


End canonical_claim.

(** Constant columns are skipped. *)
Example canonical_tuple_skips_constants :
  canonical_tuple nonneg_is_variable
    {| tuples := [[5; 7; 3]]%Z; tuple_index := [1; -8; 0]%Z |} [5; 7; 3]%Z
  = Some [3; 5]%Z.
Proof. reflexivity. Qed.

(** A slot id carried by two columns: the later column wins and the
    binding has an entry too many. *)
Example canonical_tuple_repeated_slot :
  canonical_tuple nonneg_is_variable
    {| tuples := [[5; 3]]%Z; tuple_index := [0; 0]%Z |} [5; 3]%Z
  = Some [3; 0]%Z.
Proof. reflexivity. Qed.

(** A slot id beyond the number of variable columns is written out of
    bounds. *)
Example canonical_tuple_slot_out_of_range :
  canonical_tuple nonneg_is_variable
    {| tuples := [[5]]%Z; tuple_index := [1]%Z |} [5]%Z
  = None.
Proof. reflexivity. Qed.


(** ** Properties of the effects on the relations *)

Section effects.
Implicit Types (rels : list Relation) (r : Relation) (ga : list Z)
  (ts : gset (list Z)) (g : SuccessorGenerator).

Lemma update_relation_Some rels p f r :
  vec_at rels p = Some r → rel_predicate_symbol r = p →
  update_relation rels p f =
    Some (<[Z.to_nat p := with_tuples r (f (rel_tuples r))]> rels).
Proof.
  intros Hr Hp. unfold update_relation. rewrite Hr. simpl.
  rewrite option_guard_True by done. simpl.
  unfold vec_set. by rewrite decide_True by by eapply vec_at_Some_range.
Qed.

Lemma vec_at_insert_eq {A} (v : list A) (p : Z) (x y : A) :
  vec_at v p = Some x → vec_at (<[Z.to_nat p := y]> v) p = Some y.
Proof.
  intros Hx. pose proof (vec_at_Some_range _ _ _ Hx) as Hp.
  unfold vec_at. rewrite decide_True by lia.
  apply list_lookup_insert_eq. lia.
Qed.

Lemma vec_at_insert_ne {A} (v : list A) (p q : Z) (y : A) :
  (0 ≤ p)%Z → p ≠ q → vec_at (<[Z.to_nat p := y]> v) q = vec_at v q.
Proof.
  intros Hp Hne. unfold vec_at. case_decide; [|done].
  apply list_lookup_insert_ne. lia.
Qed.

Lemma with_tuples_id r : with_tuples r (rel_tuples r) = r.
Proof. by destruct r. Qed.

Lemma vec_at_insert_id {A} (v : list A) (p : Z) (x : A) :
  vec_at v p = Some x → <[Z.to_nat p := x]> v = v.
Proof.
  unfold vec_at. case_decide; [|done]. apply list_insert_id.
Qed.

Lemma insert_if_absent_union ga ts : insert_if_absent ga ts = ts ∪ {[ga]}.
Proof.
  unfold insert_if_absent, insert_atom. case_decide; set_solver.
Qed.

Lemma insert_if_absent_size ga ts :
  size (insert_if_absent ga ts) =
    if decide (ga ∈ ts) then size ts else S (size ts).
Proof.
  unfold insert_if_absent, insert_atom. case_decide; [done|].
  rewrite size_union by set_solver. by rewrite size_singleton.
Qed.

Lemma tuple_to_atom_Some tuple eff g ga :
  resolve_arguments tuple eff = Some ga → (-1)%Z ∉ ga →
  tuple_to_atom tuple eff g = Some (ga, set_ground_atom g ga).
Proof.
  intros Hga Hok. unfold tuple_to_atom. rewrite Hga. simpl.
  by rewrite option_guard_True.
Qed.

Lemma apply_lifted_effect_Some tuple eff rels g ga r :
  resolve_arguments tuple eff = Some ga → (-1)%Z ∉ ga →
  vec_at rels (predicate_symbol eff) = Some r →
  rel_predicate_symbol r = predicate_symbol eff →
  apply_lifted_effect tuple eff rels g =
    Some (<[Z.to_nat (predicate_symbol eff) :=
             with_tuples r
               (if negated eff then erase ga (rel_tuples r)
                else insert_if_absent ga (rel_tuples r))]> rels,
          set_ground_atom g ga).
Proof.
  intros Hga Hok Hr Hp. unfold apply_lifted_effect.
  rewrite (tuple_to_atom_Some _ _ _ _ Hga Hok). simpl.
  rewrite (update_relation_Some _ _ _ _ Hr Hp). simpl.
  by destruct (negated eff).
Qed.

End effects.

(** C7. An effect whose atom resolves to [ga] leaves in the relation of its
    predicate the set without [ga] when it is negated and the set with [ga]
    when it is positive.  A positive effect on a relation holding [ga] and
    a negated effect on a relation not holding [ga] change nothing and do
    not fail; the size after an addition grows by one only when [ga] was
    absent; applying the same effect a second time changes nothing. *)
Theorem effect_set_semantics tuple eff rels g ga r :
  resolve_arguments tuple eff = Some ga → (-1)%Z ∉ ga →
  vec_at rels (predicate_symbol eff) = Some r →
  rel_predicate_symbol r = predicate_symbol eff →
  ∃ rels' r',
    apply_lifted_effect tuple eff rels g
      = Some (rels', set_ground_atom g ga) ∧
    vec_at rels' (predicate_symbol eff) = Some r' ∧
    (∀ q, q ≠ predicate_symbol eff → vec_at rels' q = vec_at rels q) ∧
    rel_tuples r' = (if negated eff then rel_tuples r ∖ {[ga]}
                     else rel_tuples r ∪ {[ga]}) ∧
    (negated eff = false → ga ∈ rel_tuples r → rels' = rels) ∧
    (negated eff = true → ga ∉ rel_tuples r → rels' = rels) ∧
    (negated eff = false → ga ∈ rel_tuples r →
       size (rel_tuples r') = size (rel_tuples r)) ∧
    (negated eff = false → ga ∉ rel_tuples r →
       size (rel_tuples r') = S (size (rel_tuples r))) ∧
    apply_lifted_effect tuple eff rels' (set_ground_atom g ga)
      = Some (rels', set_ground_atom g ga).
Proof.
  intros Hga Hok Hr Hp.
  pose proof (vec_at_Some_range _ _ _ Hr) as Hrange.
  eexists _, _. split; [by apply apply_lifted_effect_Some|].
  split; [by eapply vec_at_insert_eq|].
  split; [intros q Hq; apply vec_at_insert_ne; [lia|done]|].
  split; [destruct (negated eff); simpl;
          [done|apply insert_if_absent_union]|].
  split; [|split; [|split; [|split]]].
  - intros -> Hin. unfold insert_if_absent. rewrite decide_True by done.
    rewrite with_tuples_id. by apply vec_at_insert_id.
  - intros -> Hout. unfold erase.
    replace (rel_tuples r ∖ {[ga]}) with (rel_tuples r) by set_solver.
    rewrite with_tuples_id. by apply vec_at_insert_id.
  - intros -> Hin. simpl. rewrite insert_if_absent_size.
    by rewrite decide_True.
  - intros -> Hout. simpl. rewrite insert_if_absent_size.
    by rewrite decide_False.
  - erewrite apply_lifted_effect_Some;
      [|done..|by eapply vec_at_insert_eq|done].
    rewrite list_insert_insert_eq. simpl. do 3 f_equal.
    unfold with_tuples. simpl. f_equal.
    destruct (negated eff).
    + unfold erase. set_solver.
    + rewrite !insert_if_absent_union. set_solver.
Qed.

Lemma effect_set_semantics_witness :
  ∃ rels' r',
    apply_lifted_effect [4]%Z sample_effect (get_relations sample_state)
        sample_generator
      = Some (rels', set_ground_atom sample_generator [4; 7]%Z) ∧
    vec_at rels' (predicate_symbol sample_effect) = Some r' ∧
    (∀ q, q ≠ predicate_symbol sample_effect →
          vec_at rels' q = vec_at (get_relations sample_state) q) ∧
    rel_tuples r' = (if negated sample_effect
                     then rel_tuples (mkRelation 0 ∅) ∖ {[ [4; 7]%Z ]}
                     else rel_tuples (mkRelation 0 ∅) ∪ {[ [4; 7]%Z ]}) ∧
    (negated sample_effect = false →
       [4; 7]%Z ∈ rel_tuples (mkRelation 0 ∅) →
       rels' = get_relations sample_state) ∧
    (negated sample_effect = true →
       [4; 7]%Z ∉ rel_tuples (mkRelation 0 ∅) →
       rels' = get_relations sample_state) ∧
    (negated sample_effect = false →
       [4; 7]%Z ∈ rel_tuples (mkRelation 0 ∅) →
       size (rel_tuples r') = size (rel_tuples (mkRelation 0 ∅))) ∧
    (negated sample_effect = false →
       [4; 7]%Z ∉ rel_tuples (mkRelation 0 ∅) →
       size (rel_tuples r') = S (size (rel_tuples (mkRelation 0 ∅)))) ∧
    apply_lifted_effect [4]%Z sample_effect rels'
        (set_ground_atom sample_generator [4; 7]%Z)
      = Some (rels', set_ground_atom sample_generator [4; 7]%Z).
Proof.
  apply (effect_set_semantics [4]%Z sample_effect
           (get_relations sample_state) sample_generator [4; 7]%Z
           (mkRelation 0 ∅)).
  - reflexivity.
  - intros Hin. set_unfold in Hin. lia.
  - reflexivity.
  - reflexivity.
Defined.

(** ** Properties of the applicability of a ground action *)

Section ground_applicability.
Implicit Types (g : SuccessorGenerator) (state : DBState) (precond : Atom).

Lemma constant_arguments_tuple (args : list Argument) :
  Forall (λ arg, constant arg = true) args →
  mapM (λ arg, _ ← guard (constant arg = true); Some (index arg)) args
    = Some (index <$> args).
Proof.
  induction 1 as [|arg args Harg _ IH]; [done|].
  simpl. rewrite option_guard_True by done. simpl.
  by rewrite IH.
Qed.

Lemma precondition_holds_is_Some g state precond :
  checkable g state precond → is_Some (precondition_holds g state precond).
Proof.
  intros (Hargs & [ts Hts] & [sts Hsts]). unfold precondition_holds.
  rewrite (constant_arguments_tuple _ Hargs), Hts, Hsts. simpl.
  repeat case_decide; destruct (negated precond); eauto.
Qed.

Lemma precondition_holds_both_empty g state precond :
  Forall (λ arg, constant arg = true) (arguments precond) →
  get_tuples_of_relation state (predicate_symbol precond) = Some ∅ →
  get_tuples_from_static_relation g (predicate_symbol precond) = Some ∅ →
  precondition_holds g state precond = Some false.
Proof.
  intros Hargs Hts Hsts. unfold precondition_holds.
  rewrite (constant_arguments_tuple _ Hargs), Hts, Hsts. simpl.
  by rewrite !decide_False by (by intros []).
Qed.

Lemma preconditions_hold_false g state preconds precond :
  Forall (checkable g state) preconds →
  precond ∈ preconds →
  precondition_holds g state precond = Some false →
  preconditions_hold g state preconds = Some false.
Proof.
  induction 1 as [|p preconds Hp _ IH]; intros Hin Hfalse.
  { by apply elem_of_nil in Hin. }
  simpl. destruct (precondition_holds_is_Some g state p Hp) as [ok Hok].
  rewrite Hok. simpl. destruct ok; [|done].
  apply elem_of_cons in Hin as [->|Hin]; [congruence|by apply IH].
Qed.

End ground_applicability.

(** C1. A precondition of a ground action whose predicate has no tuple in
    the state and no tuple in the static information is reported
    unsatisfied, negated or not, and the action with it is reported
    inapplicable. *)
Theorem both_empty_unsatisfied g action state precond :
  Forall (checkable g state) (get_precondition action) →
  precond ∈ get_precondition action →
  get_tuples_of_relation state (predicate_symbol precond) = Some ∅ →
  get_tuples_from_static_relation g (predicate_symbol precond) = Some ∅ →
  precondition_holds g state precond = Some false ∧
  is_ground_action_applicable g action state = Some false.
Proof.
  intros Hall Hin Hts Hsts.
  assert (Hfalse : precondition_holds g state precond = Some false).
  { apply precondition_holds_both_empty; [|done..].
    by apply (proj1 (Forall_forall _ _) Hall precond Hin). }
  split; [done|]. unfold is_ground_action_applicable.
  by eapply preconditions_hold_false.
Qed.

Lemma both_empty_unsatisfied_witness :
  negated sample_negated_precondition = true ∧
  precondition_holds sample_generator sample_state
    sample_negated_precondition = Some false ∧
  is_ground_action_applicable sample_generator sample_ground_action
    sample_state = Some false.
Proof.
  split; [reflexivity|].
  apply (both_empty_unsatisfied sample_generator sample_ground_action
           sample_state sample_negated_precondition).
  - repeat constructor; simpl; eauto.
  - apply list_elem_of_here.
  - reflexivity.
  - reflexivity.
Defined.

(** ** Properties of the successor computation *)

Section successor.
Implicit Types (rels : list Relation) (g : SuccessorGenerator)
  (state : DBState) (action : ActionSchema) (eff : Atom).

Lemma update_relation_wf rels p f :
  relations_wf rels → (0 ≤ p < Z.of_nat (length rels))%Z →
  ∃ rels', update_relation rels p f = Some rels' ∧
           relations_wf rels' ∧ length rels' = length rels.
Proof.
  intros Hwf Hp.
  destruct (lookup_lt_is_Some_2 rels (Z.to_nat p)) as [r Hr]; [lia|].
  assert (Hsym : rel_predicate_symbol r = p).
  { rewrite (Hwf _ _ Hr). lia. }
  assert (Hat : vec_at rels p = Some r).
  { unfold vec_at. by rewrite decide_True by lia. }
  eexists. split; [by apply update_relation_Some|].
  split; [|by rewrite length_insert].
  intros i r' Hi. destruct (decide (i = Z.to_nat p)) as [->|Hne].
  - rewrite list_lookup_insert_eq in Hi by lia. simplify_eq. simpl. lia.
  - rewrite list_lookup_insert_ne in Hi by done. by apply Hwf.
Qed.

Lemma apply_ground_effects_defined effects rels :
  Forall (ground_effect_defined (length rels)) effects →
  relations_wf rels →
  ∃ rels', apply_ground_effects effects rels = Some rels'.
Proof.
  intros Hall. revert rels Hall.
  induction effects as [|eff effects IH]; intros rels Hall Hwf; [by eexists|].
  apply Forall_cons in Hall as [[Hp [ga Hga]] Hall]. simpl.
  unfold apply_ground_effect. rewrite Hga. simpl.
  destruct (update_relation_wf rels (predicate_symbol eff)
              (if negated eff then erase ga else insert_atom ga) Hwf Hp)
    as (rels' & -> & Hwf' & Hlen). simpl.
  apply IH; [by rewrite Hlen|done].
Qed.

Lemma apply_lifted_effects_defined effects tuple rels g :
  Forall (lifted_effect_defined (length rels) tuple) effects →
  relations_wf rels →
  ∃ rels' g', apply_lifted_effects effects tuple rels g = Some (rels', g') ∧
              static_information g' = static_information g.
Proof.
  intros Hall. revert rels g Hall.
  induction effects as [|eff effects IH]; intros rels g Hall Hwf;
    [by eexists _, _|].
  apply Forall_cons in Hall as [[Hp (ga & Hga & Hok)] Hall]. simpl.
  unfold apply_lifted_effect.
  rewrite (tuple_to_atom_Some _ _ g _ Hga Hok). simpl.
  destruct (update_relation_wf rels (predicate_symbol eff)
              (if negated eff then erase ga
               else λ ts, if decide (ga ∈ ts) then ts else insert_atom ga ts)
              Hwf Hp)
    as (rels' & -> & Hwf' & Hlen). simpl.
  destruct (IH rels' (set_ground_atom g ga)) as (rels'' & g'' & -> & Hst);
    [by rewrite Hlen|done|].
  by eexists _, _.
Qed.

Lemma generate_successors_defined op action state g :
  successor_defined op action state →
  ∃ state' g', generate_successors op action state g = Some (state', g') ∧
               static_information g' = static_information g.
Proof.
  intros (Hneg & Hpos & Hwf & Heffects). unfold generate_successors.
  destruct (apply_nullary_effects_spec action (get_nullary_atoms state)
              Hneg Hpos) as (atoms' & -> & _). simpl.
  destruct (is_ground action).
  - unfold apply_ground_action_effects.
    destruct (apply_ground_effects_defined _ _ Heffects Hwf) as [rels' ->].
    simpl. by eexists _, _.
  - unfold apply_lifted_action_effects.
    destruct (apply_lifted_effects_defined _ _ _ g Heffects Hwf)
      as (rels' & g' & -> & Hst).
    simpl. by eexists _, _.
Qed.

Variable index_is_variable : Table → nat → bool.
Variable instantiate : DBState → ActionSchema → DBState → Table.

Lemma precondition_holds_static g g' state precond :
  static_information g' = static_information g →
  precondition_holds g' state precond = precondition_holds g state precond.
Proof.
  intros Hst. unfold precondition_holds, get_tuples_from_static_relation.
  by rewrite Hst.
Qed.

Lemma preconditions_hold_static g g' state preconds :
  static_information g' = static_information g →
  preconditions_hold g' state preconds = preconditions_hold g state preconds.
Proof.
  intros Hst. induction preconds as [|precond preconds IH]; [done|]. simpl.
  by rewrite (precondition_holds_static g g') , IH.
Qed.

(** The applicability query reads the generator through its static
    information only. *)
Lemma get_applicable_actions_static g g' actions state :
  static_information g' = static_information g →
  get_applicable_actions index_is_variable instantiate g' actions state =
  get_applicable_actions index_is_variable instantiate g actions state.
Proof.
  intros Hst. induction actions as [|action actions IH]; [done|]. simpl.
  rewrite IH. unfold applicable_operators_of, is_ground_action_applicable.
  by rewrite (preconditions_hold_static g g'), Hst.
Qed.

End successor.

Section successor_claim.
Variable index_is_variable : Table → nat → bool.
Variable instantiate : DBState → ActionSchema → DBState → Table.

(** C4. [generate_successors] returns a state and changes nothing that the
    applicability query reads: the state it is given is only read, and of
    the generator only the scratch atom is written, so that
    [get_applicable_actions] on the original state answers after the call
    what it answers before. *)
Theorem generate_successors_frame g op action state :
  successor_defined op action state →
  ∃ state' g',
    generate_successors op action state g = Some (state', g') ∧
    static_information g' = static_information g ∧
    ∀ actions,
      get_applicable_actions index_is_variable instantiate g' actions state =
      get_applicable_actions index_is_variable instantiate g actions state.
Proof.
  intros Hdef.
  destruct (generate_successors_defined op action state g Hdef)
    as (state' & g' & Heq & Hst).
  exists state', g'. split; [done|]. split; [done|].
  intros actions. by apply get_applicable_actions_static.
Qed.

End successor_claim.

Lemma generate_successors_frame_witness :
  ∃ state' g',
    generate_successors sample_operator sample_lifted_action sample_state
      sample_generator = Some (state', g') ∧
    static_information g' = static_information sample_generator ∧
    ∀ actions,
      get_applicable_actions nonneg_is_variable sample_instantiate g'
        actions sample_state =
      get_applicable_actions nonneg_is_variable sample_instantiate
        sample_generator actions sample_state.
Proof.
  apply (generate_successors_frame nonneg_is_variable sample_instantiate
           sample_generator sample_operator sample_lifted_action
           sample_state).
  split; [|split; [|split]].
  - intros [|[|k]] Hk; simpl; try lia; discriminate Hk.
  - intros [|[|k]] Hk; simpl; try lia; discriminate Hk.
  - intros [|[|i]] r Hr; simpl in Hr; [by simplify_eq..|discriminate Hr].
  - simpl. repeat constructor; simpl; try lia.
    + exists [4; 7]%Z. split; [reflexivity|]. intros Hin.
      set_unfold in Hin. lia.
    + exists [1; 2]%Z. split; [reflexivity|]. intros Hin.
      set_unfold in Hin. lia.
Defined.

Example generate_successors_sample :
  (r ← generate_successors sample_operator sample_lifted_action sample_state
         sample_generator;
   Some (get_nullary_atoms r.1,
         elements ∘ rel_tuples <$> get_relations r.1,
         ground_atom r.2))
  = Some ([false; true], [[[4; 7]%Z]; []], [1; 2]%Z).
Proof. vm_compute. reflexivity. Qed.

Example get_applicable_actions_sample :
  get_applicable_actions nonneg_is_variable sample_instantiate
    sample_generator [sample_ground_action; sample_lifted_action]
    sample_state
  = Some [ {| op_get_index := 5; get_instantiation := [4]%Z |};
           {| op_get_index := 5; get_instantiation := [6]%Z |} ].
Proof. vm_compute. reflexivity. Qed.

(** * Further properties *)

(** ** The semi-join as a filter *)

Lemma compute_matches_columns ta ta' tb tb' :
  tuple_index ta' = tuple_index ta → tuple_index tb' = tuple_index tb →
  compute_matches ta' tb' = compute_matches ta tb.
Proof.
  intros Ha Hb. unfold compute_matches, matches_in_row. by rewrite Ha, Hb.
Qed.

Lemma mkTable_eta t : {| tuples := tuples t; tuple_index := tuple_index t |} = t.
Proof. by destruct t. Qed.

(** On well-formed tables [semi_join] returns, and what it returns is
    [kept_rows] under the columns of [t1]. *)
Lemma semi_join_kept_rows ta tb :
  table_wf ta → table_wf tb →
  semi_join ta tb =
    Some {| tuples := kept_rows ta tb; tuple_index := tuple_index ta |}.
Proof.
  intros Ha Hb. unfold kept_rows.
  destruct (compute_matches ta tb) as [|m ms] eqn:Hms.
  - unfold semi_join. rewrite Hms. simpl. f_equal.
    rewrite <- (mkTable_eta ta) at 1. f_equal.
    induction (tuples ta) as [|r rows IH]; [done|].
    rewrite filter_cons. rewrite decide_True by done. by rewrite <- IH.
  - rewrite <- Hms. rewrite semi_join_filter by (done || by rewrite Hms).
    by rewrite Hms.
Qed.

Lemma kept_rows_wf ta tb :
  table_wf ta →
  table_wf {| tuples := kept_rows ta tb; tuple_index := tuple_index ta |}.
Proof.
  unfold table_wf, kept_rows. simpl. intros Ha.
  apply Forall_forall. intros r [_ Hr]%list_elem_of_filter.
  by apply (proj1 (Forall_forall _ _) Ha).
Qed.

Lemma filter_twice {A} (P : A → Prop) `{∀ x, Decision (P x)} (l : list A) :
  filter P (filter P l) = filter P l.
Proof.
  induction l as [|x l IH]; [done|]. rewrite filter_cons.
  destruct (decide (P x)); [|done].
  rewrite filter_cons. rewrite decide_True by done. by rewrite IH.
Qed.

Lemma filter_swap {A} (P Q : A → Prop)
    `{∀ x, Decision (P x)} `{∀ x, Decision (Q x)} (l : list A) :
  filter P (filter Q l) = filter Q (filter P l).
Proof.
  induction l as [|x l IH]; [done|]. rewrite !filter_cons.
  destruct (decide (P x)), (decide (Q x)); rewrite ?filter_cons;
    rewrite ?decide_True by done; rewrite ?decide_False by done;
    by rewrite IH.
Qed.

(** X1. On well-formed tables the semi-join is idempotent: filtering the
    result once more against the same [t2] changes nothing. *)
Theorem semi_join_idempotent ta tb :
  table_wf ta → table_wf tb →
  ∃ ta', semi_join ta tb = Some ta' ∧ semi_join ta' tb = Some ta'.
Proof.
  intros Ha Hb. eexists. split; [by apply semi_join_kept_rows|].
  rewrite semi_join_kept_rows; [|by apply kept_rows_wf|done].
  simpl. f_equal. f_equal. unfold kept_rows at 1. simpl.
  rewrite (compute_matches_columns ta _ tb tb) by done.
  unfold kept_rows. apply filter_twice.
Qed.

Lemma semi_join_idempotent_witness :
  ∃ ta', semi_join sample_t1 sample_t2 = Some ta' ∧
         semi_join ta' sample_t2 = Some ta'.
Proof.
  apply (semi_join_idempotent sample_t1 sample_t2); repeat constructor.
Defined.

(** X2. The semi-join keeps the invariant of tables: on well-formed tables
    it never reads a row out of bounds, and the table it leaves has the
    columns of [t1], rows as long as the columns, and no more rows than
    before. *)
Theorem semi_join_preserves_wf ta tb :
  table_wf ta → table_wf tb →
  ∃ ta', semi_join ta tb = Some ta' ∧ table_wf ta' ∧
         tuple_index ta' = tuple_index ta ∧
         length (tuples ta') ≤ length (tuples ta).
Proof.
  intros Ha Hb. eexists. split; [by apply semi_join_kept_rows|].
  split; [by apply kept_rows_wf|]. split; [done|].
  simpl. unfold kept_rows. apply length_filter.
Qed.

Lemma semi_join_preserves_wf_witness :
  ∃ ta', semi_join sample_t1 sample_t2 = Some ta' ∧ table_wf ta' ∧
         tuple_index ta' = tuple_index sample_t1 ∧
         length (tuples ta') ≤ length (tuples sample_t1).
Proof.
  apply (semi_join_preserves_wf sample_t1 sample_t2); repeat constructor.
Defined.

(** X3. Semi-joins against two tables commute: filtering [t1] against [t2]
    and then [t3] leaves the table that filtering against [t3] and then
    [t2] leaves. *)
Theorem semi_join_commute ta tb tc :
  table_wf ta → table_wf tb → table_wf tc →
  ∃ tab tac t,
    semi_join ta tb = Some tab ∧ semi_join ta tc = Some tac ∧
    semi_join tab tc = Some t ∧ semi_join tac tb = Some t.
Proof.
  intros Ha Hb Hc. eexists _, _, _.
  split; [by apply semi_join_kept_rows|].
  split; [by apply semi_join_kept_rows|].
  rewrite !semi_join_kept_rows by (done || by apply kept_rows_wf).
  split; [done|]. simpl. f_equal. f_equal. unfold kept_rows at 1 3. simpl.
  rewrite (compute_matches_columns ta _ tb tb) by done.
  rewrite (compute_matches_columns ta _ tc tc) by done.
  unfold kept_rows. apply filter_swap.
Qed.

Lemma semi_join_commute_witness :
  ∃ tab tac t,
    semi_join sample_t1 sample_t2 = Some tab ∧
    semi_join sample_t1 sample_t4 = Some tac ∧
    semi_join tab sample_t4 = Some t ∧ semi_join tac sample_t2 = Some t.
Proof.
  apply (semi_join_commute sample_t1 sample_t2 sample_t4);
    repeat constructor.
Defined.

(** ** Edge cases of the semi-join *)

Lemma agree_onb_diagonal ms r :
  (∀ i j, (i, j) ∈ ms → i = j) → agree_onb ms r r = true.
Proof.
  intros Hdiag. unfold agree_onb. apply forallb_forall.
  intros [i j] Hin%list_elem_of_In. apply bool_decide_eq_true. simpl.
  by rewrite (Hdiag i j Hin).
Qed.

Lemma filter_all {A} (P : A → Prop) `{∀ x, Decision (P x)} (l : list A) :
  (∀ x, x ∈ l → P x) → filter P l = l.
Proof.
  induction l as [|x l IH]; intros Hall; [done|].
  rewrite filter_cons. rewrite decide_True by (apply Hall, list_elem_of_here).
  rewrite IH; [done|]. intros y Hy. by apply Hall, list_elem_of_further.
Qed.

(** X4. A well-formed table whose columns carry pairwise distinct tags is
    left as it is by the semi-join with itself: every row is its own
    witness. *)
Theorem semi_join_self t :
  table_wf t → NoDup (tuple_index t) → semi_join t t = Some t.
Proof.
  intros Hwf Hnd. rewrite semi_join_kept_rows by done.
  rewrite <- (mkTable_eta t) at 4. f_equal. f_equal.
  unfold kept_rows. apply filter_all. intros r Hr. unfold keptb.
  destruct (compute_matches t t) as [|m ms] eqn:Hms; [done|].
  rewrite <- Hms. unfold has_witnessb. apply existsb_exists.
  exists r. split; [by apply list_elem_of_In|].
  apply agree_onb_diagonal. intros i j Hin.
  apply matching_pair_tags in Hin as (s & Hi & Hj).
  by eapply NoDup_lookup.
Qed.

Lemma semi_join_self_witness : semi_join sample_t1 sample_t1 = Some sample_t1.
Proof.
  apply (semi_join_self sample_t1); [repeat constructor|].
  simpl. repeat constructor; set_solver.
Defined.

(** With a tag carried by two columns the self-join compares the two
    columns with each other and drops the rows that differ on them. *)
Example semi_join_self_repeated_columns :
  semi_join sample_repeated_columns sample_repeated_columns =
    Some {| tuples := [[3; 3]]%Z; tuple_index := [0; 0]%Z |}.
Proof. reflexivity. Qed.

Lemma join_tuples_empty ms rows : join_tuples ms rows [] = Some [].
Proof. induction rows as [|r rows IH]; [done|]. simpl. by rewrite IH. Qed.

(** X5. Against a table without rows that shares a column with [t1], the
    semi-join removes every row of [t1], whatever the rows are; the
    columns stay. *)
Theorem semi_join_empty_right ta tb :
  compute_matches ta tb ≠ [] → tuples tb = [] →
  semi_join ta tb = Some {| tuples := []; tuple_index := tuple_index ta |}.
Proof.
  intros Hne Hempty. unfold semi_join.
  destruct (compute_matches ta tb) as [|m ms]; [done|].
  by rewrite Hempty, join_tuples_empty.
Qed.

Lemma semi_join_empty_right_witness :
  semi_join sample_t1 {| tuples := []; tuple_index := [2; 0]%Z |} =
    Some {| tuples := []; tuple_index := tuple_index sample_t1 |}.
Proof.
  apply (semi_join_empty_right sample_t1
           {| tuples := []; tuple_index := [2; 0]%Z |}).
  - vm_compute. discriminate.
  - reflexivity.
Defined.

Lemma join_tuples_out_of_bounds i j ms rows r r' rows' :
  r ∈ rows → length r ≤ i →
  join_tuples ((i, j) :: ms) rows (r' :: rows') = None.
Proof.
  intros Hin Hlen. induction rows as [|r0 rows IH].
  { by apply elem_of_nil in Hin. }
  apply elem_of_cons in Hin as [<-|Hin].
  - simpl. by rewrite (lookup_ge_None_2 r i) by done.
  - cbn [join_tuples]. rewrite (IH Hin).
    by destruct (has_match ((i, j) :: ms) r0 (r' :: rows')).
Qed.

(** X6. The rows are not checked against the columns: when [t2] has a row
    and some row of [t1] is too short for the first matching column, the
    semi-join reads that row out of bounds. *)
Theorem semi_join_out_of_bounds ta tb i j ms r :
  compute_matches ta tb = (i, j) :: ms → tuples tb ≠ [] →
  r ∈ tuples ta → length r ≤ i →
  semi_join ta tb = None.
Proof.
  intros Hms Hne Hin Hlen. unfold semi_join. rewrite Hms.
  destruct (tuples tb) as [|r' rows']; [done|].
  by rewrite (join_tuples_out_of_bounds i j ms _ r r' rows').
Qed.

Lemma semi_join_out_of_bounds_witness :
  semi_join sample_short_rows sample_t2 = None.
Proof.
  apply (semi_join_out_of_bounds sample_short_rows sample_t2 0 1 [] []).
  - reflexivity.
  - discriminate.
  - simpl. set_solver.
  - simpl. lia.
Defined.

(** ** Nullary preconditions and effects, in full *)

Lemma assign_where_Some_inv effects i b atoms atoms' :
  assign_where effects i b atoms = Some atoms' →
  length atoms' = length atoms ∧
  ∀ k, effects !! k = Some true → i + k < length atoms.
Proof.
  revert i atoms. induction effects as [|e rest IH]; intros i atoms Heq.
  { simpl in Heq. simplify_eq. split; [done|]. intros k Hk.
    by rewrite lookup_nil in Hk. }
  simpl in Heq. destruct e.
  - case_decide as Hi; [|done]. simpl in Heq.
    apply IH in Heq as [Hlen Hrange]. rewrite length_insert in Hlen, Hrange.
    split; [done|]. intros [|k] Hk; [lia|]. specialize (Hrange k Hk). lia.
  - simpl in Heq. apply IH in Heq as [Hlen Hrange].
    split; [done|]. intros [|k] Hk; [done|]. specialize (Hrange k Hk). lia.
Qed.

Lemma nullary_effect_bits_in_range action atoms :
  is_Some (apply_nullary_effects action atoms) →
  (∀ k, get_negative_nullary_effects action !! k = Some true →
        k < length atoms) ∧
  (∀ k, get_positive_nullary_effects action !! k = Some true →
        k < length atoms).
Proof.
  intros [atoms' Heq]. unfold apply_nullary_effects in Heq.
  destruct (assign_where (get_negative_nullary_effects action) 0 false
              atoms) as [atoms1|] eqn:H1; [|done]. simpl in Heq.
  apply assign_where_Some_inv in H1 as [Hlen1 Hneg].
  apply assign_where_Some_inv in Heq as [_ Hpos].
  split; intros k Hk.
  - by apply (Hneg k).
  - rewrite <- Hlen1. by apply (Hpos k).
Qed.

(** X7. [apply_nullary_effects] stays inside the vector of nullary atoms
    exactly when every effect bit that is set, negative or positive, has a
    position in that vector. *)
Theorem apply_nullary_effects_defined_iff action atoms :
  is_Some (apply_nullary_effects action atoms) ↔
  (∀ k, get_negative_nullary_effects action !! k = Some true →
        k < length atoms) ∧
  (∀ k, get_positive_nullary_effects action !! k = Some true →
        k < length atoms).
Proof.
  split; [apply nullary_effect_bits_in_range|].
  - intros [Hneg Hpos].
    destruct (apply_nullary_effects_spec action atoms Hneg Hpos)
      as (atoms' & -> & _). by eexists.
Qed.

(** X8. Applying the nullary effects of an action is idempotent, keeps the
    number of nullary atoms, sets to false a fact that is deleted and not
    added, and leaves untouched every fact the action neither adds nor
    deletes. *)
Theorem apply_nullary_effects_idempotent action atoms atoms' :
  apply_nullary_effects action atoms = Some atoms' →
  apply_nullary_effects action atoms' = Some atoms' ∧
  length atoms' = length atoms ∧
  (∀ j, get_negative_nullary_effects action !! j = Some true →
        get_positive_nullary_effects action !! j ≠ Some true →
        atoms' !! j = Some false) ∧
  (∀ j, get_negative_nullary_effects action !! j ≠ Some true →
        get_positive_nullary_effects action !! j ≠ Some true →
        atoms' !! j = atoms !! j).
Proof.
  intros Heq.
  assert (Hdef : is_Some (apply_nullary_effects action atoms)) by by eexists.
  apply nullary_effect_bits_in_range in Hdef as [Hneg Hpos].
  destruct (apply_nullary_effects_spec action atoms Hneg Hpos)
    as (atoms1 & Heq1 & Hlen & Hat). simplify_eq.
  destruct (apply_nullary_effects_spec action atoms') as (atoms2 & Heq2 & Hlen2 & Hat2).
  { intros k Hk. rewrite Hlen. by apply Hneg. }
  { intros k Hk. rewrite Hlen. by apply Hpos. }
  split; [|split; [done|split]].
  - rewrite Heq2. f_equal. apply list_eq. intros j. rewrite Hat2, !Hat.
    by repeat case_decide.
  - intros j Hd Ha. rewrite Hat. rewrite decide_False by done.
    by rewrite decide_True.
  - intros j Hd Ha. rewrite Hat. by rewrite !decide_False.
Qed.

Lemma apply_nullary_effects_idempotent_witness :
  apply_nullary_effects sample_handempty [false; true] = Some [false; true] ∧
  length [false; true] = length [true; false] ∧
  (∀ j, get_negative_nullary_effects sample_handempty !! j = Some true →
        get_positive_nullary_effects sample_handempty !! j ≠ Some true →
        [false; true] !! j = Some false) ∧
  (∀ j, get_negative_nullary_effects sample_handempty !! j ≠ Some true →
        get_positive_nullary_effects sample_handempty !! j ≠ Some true →
        [false; true] !! j = [true; false] !! j).
Proof.
  apply (apply_nullary_effects_idempotent sample_handempty [true; false]).
  reflexivity.
Defined.

Lemma is_trivially_inapplicable_from_spec i pos neg atoms :
  (∀ k, k < length pos → i + k < length neg ∧ i + k < length atoms) →
  ∃ b, is_trivially_inapplicable_from i pos neg atoms = Some b ∧
    (b = true ↔
     ∃ k, k < length pos ∧
          (pos !! k = Some true ∧ atoms !! (i + k) = Some false ∨
           neg !! (i + k) = Some true ∧ atoms !! (i + k) = Some true)).
Proof.
  revert i. induction pos as [|p rest IH]; intros i Hrange.
  { exists false. split; [done|]. split; [done|].
    intros (k & Hk & _). simpl in Hk. lia. }
  destruct (Hrange 0) as [Hn Ha]; [simpl; lia|].
  replace (i + 0) with i in Hn, Ha by lia.
  destruct (lookup_lt_is_Some_2 _ _ Hn) as [n Hnv].
  destruct (lookup_lt_is_Some_2 _ _ Ha) as [a Hav].
  destruct (IH (S i)) as (b & Hb & Hiff).
  { intros k Hk. destruct (Hrange (S k)); [simpl; lia|].
    split; lia. }
  assert (Hhere : (p = true ∧ a = false ∨ n = true ∧ a = true) →
    ∃ k, k < length (p :: rest) ∧
         ((p :: rest) !! k = Some true ∧ atoms !! (i + k) = Some false ∨
          neg !! (i + k) = Some true ∧ atoms !! (i + k) = Some true)).
  { intros Hv. exists 0. split; [simpl; lia|].
    replace (i + 0) with i by lia. rewrite Hnv, Hav. simpl. naive_solver. }
  assert (Hlater : ¬ (p = true ∧ a = false ∨ n = true ∧ a = true) →
    (b = true ↔
     ∃ k, k < length (p :: rest) ∧
          ((p :: rest) !! k = Some true ∧ atoms !! (i + k) = Some false ∨
           neg !! (i + k) = Some true ∧ atoms !! (i + k) = Some true))).
  { intros Hnot. rewrite Hiff. split.
    - intros (k & Hk & Hv). exists (S k). split; [simpl; lia|].
      by replace (i + S k) with (S i + k) by lia.
    - intros ([|k] & Hk & Hv).
      + exfalso. apply Hnot. replace (i + 0) with i in Hv by lia.
        rewrite Hnv, Hav in Hv. simpl in Hv. naive_solver.
      + exists k. split; [simpl in Hk; lia|].
        by replace (S i + k) with (i + S k) by lia. }
  simpl. rewrite Hav, Hnv. simpl.
  destruct p, a, n; simpl; rewrite ?Hav; simpl;
    first [ by (exists true; split; [done|]; split; [intros _; apply Hhere; auto|done])
          | by (rewrite Hb; exists b; split; [done|]; apply Hlater; naive_solver) ].
Qed.

(** X9. With the three vectors long enough, an action is trivially
    inapplicable exactly when, at a position of its positive precondition
    vector, a fact required true is false or a fact required false is
    true.  Positions past the end of the positive vector are not looked
    at. *)
Theorem is_trivially_inapplicable_iff state action :
  length (get_positive_nullary_precond action)
    ≤ length (get_negative_nullary_precond action) →
  length (get_positive_nullary_precond action)
    ≤ length (get_nullary_atoms state) →
  ∃ b, is_trivially_inapplicable state action = Some b ∧
       (b = true ↔ ∃ k, nullary_violation state action k).
Proof.
  intros Hneg Hatoms. unfold is_trivially_inapplicable, nullary_violation.
  destruct (is_trivially_inapplicable_from_spec 0
              (get_positive_nullary_precond action)
              (get_negative_nullary_precond action)
              (get_nullary_atoms state)) as (b & Hb & Hiff).
  { intros k Hk. simpl. lia. }
  exists b. split; [done|]. rewrite Hiff. done.
Qed.

Lemma is_trivially_inapplicable_iff_witness :
  ∃ b, is_trivially_inapplicable sample_state_handempty
         sample_negative_precond = Some b ∧
       (b = true ↔
        ∃ k, nullary_violation sample_state_handempty
               sample_negative_precond k).
Proof.
  apply (is_trivially_inapplicable_iff sample_state_handempty
           sample_negative_precond); simpl; lia.
Defined.

Example is_trivially_inapplicable_sample :
  is_trivially_inapplicable sample_state_handempty sample_negative_precond
    = Some true ∧
  is_trivially_inapplicable sample_state sample_negative_precond
    = Some false.
Proof. split; reflexivity. Qed.

(** ** The applicability of a ground action, in full *)

Lemma precondition_holds_iff g state precond ts sts :
  Forall (λ arg, constant arg = true) (arguments precond) →
  get_tuples_of_relation state (predicate_symbol precond) = Some ts →
  get_tuples_from_static_relation g (predicate_symbol precond) = Some sts →
  ∃ b, precondition_holds g state precond = Some b ∧
       (b = true ↔
        literal_holds ts sts (index <$> arguments precond) (negated precond)).
Proof.
  intros Hargs Hts Hsts. unfold precondition_holds, literal_holds.
  rewrite (constant_arguments_tuple _ Hargs), Hts, Hsts. simpl.
  destruct (decide (ts ≠ ∅)) as [Hne|He%dec_stable];
    [|destruct (decide (sts ≠ ∅)) as [Hsne|Hse%dec_stable]];
    destruct (negated precond); eexists; (split; [done|]);
    rewrite ?negb_true_iff, ?bool_decide_eq_true, ?bool_decide_eq_false.
  all: try (split; [intros Hin; eexists; split; [eauto|naive_solver]
                   |intros (c & [[_ ->]|(? & _)] & Hc); naive_solver]).
  all: try (split; [intros Hin; eexists; split; [right; eauto|naive_solver]
                   |intros (c & [[? _]|(_ & _ & ->)] & Hc); naive_solver]).
  all: split; [done|intros (c & [[? _]|(_ & ? & _)] & _); done].
Qed.

Lemma preconditions_hold_iff g state preconds :
  Forall (checkable g state) preconds →
  ∃ b, preconditions_hold g state preconds = Some b ∧
       (b = true ↔
        ∀ precond, precond ∈ preconds →
          precondition_holds g state precond = Some true).
Proof.
  induction 1 as [|p preconds Hp _ IH].
  { exists true. split; [done|]. split; [|done].
    intros _ precond Hin. by apply elem_of_nil in Hin. }
  destruct IH as (b & Hb & Hiff).
  destruct (precondition_holds_is_Some g state p Hp) as [ok Hok].
  simpl. rewrite Hok. simpl. destruct ok.
  - exists b. split; [done|]. rewrite Hiff. split.
    + intros Hall precond [->|Hin]%elem_of_cons; [done|by apply Hall].
    + intros Hall precond Hin. by apply Hall, list_elem_of_further.
  - exists false. split; [done|]. split; [done|]. intros Hall.
    specialize (Hall p (list_elem_of_here _ _)). congruence.
Qed.

(** X10. A ground action whose preconditions can be checked is reported
    applicable exactly when each of them holds against the relation
    consulted for its predicate: the relation of the state if it has a
    tuple, otherwise the static relation if that has a tuple; a positive
    literal must be in that relation, a negated one must not. *)
Theorem is_ground_action_applicable_iff g action state :
  Forall (checkable g state) (get_precondition action) →
  ∃ b, is_ground_action_applicable g action state = Some b ∧
    (b = true ↔
     ∀ precond, precond ∈ get_precondition action →
       ∃ ts sts,
         get_tuples_of_relation state (predicate_symbol precond) = Some ts ∧
         get_tuples_from_static_relation g (predicate_symbol precond)
           = Some sts ∧
         literal_holds ts sts (index <$> arguments precond)
           (negated precond)).
Proof.
  intros Hall. unfold is_ground_action_applicable.
  destruct (preconditions_hold_iff g state _ Hall) as (b & Hb & Hiff).
  exists b. split; [done|]. rewrite Hiff.
  split; intros Hpre precond Hin.
  - destruct (proj1 (Forall_forall _ _) Hall precond Hin)
      as (Hargs & [ts Hts] & [sts Hsts]).
    exists ts, sts. split; [done|]. split; [done|].
    destruct (precondition_holds_iff g state precond ts sts Hargs Hts Hsts)
      as (b' & Hb' & Hiff'). apply Hiff'.
    specialize (Hpre precond Hin). congruence.
  - destruct (Hpre precond Hin) as (ts & sts & Hts & Hsts & Hlit).
    destruct (proj1 (Forall_forall _ _) Hall precond Hin) as (Hargs & _).
    destruct (precondition_holds_iff g state precond ts sts Hargs Hts Hsts)
      as (b' & Hb' & Hiff'). rewrite Hb'. f_equal. by apply Hiff'.
Qed.

Lemma is_ground_action_applicable_iff_witness :
  ∃ b, is_ground_action_applicable sample_generator_static_p0
         sample_ground_action_p0 sample_state_p0 = Some b ∧
    (b = true ↔
     ∀ precond, precond ∈ get_precondition sample_ground_action_p0 →
       ∃ ts sts,
         get_tuples_of_relation sample_state_p0 (predicate_symbol precond)
           = Some ts ∧
         get_tuples_from_static_relation sample_generator_static_p0
           (predicate_symbol precond) = Some sts ∧
         literal_holds ts sts (index <$> arguments precond)
           (negated precond)).
Proof.
  apply (is_ground_action_applicable_iff sample_generator_static_p0
           sample_ground_action_p0 sample_state_p0).
  repeat constructor; simpl; eauto.
Defined.

(** X11. The relation of the state hides the static relation: once the
    state has a tuple for the predicate, a positive precondition whose
    tuple is not in the relation of the state fails, whether or not the
    static relation holds the tuple. *)
Theorem dynamic_relation_shadows_static g action state precond ts :
  Forall (checkable g state) (get_precondition action) →
  precond ∈ get_precondition action →
  negated precond = false →
  get_tuples_of_relation state (predicate_symbol precond) = Some ts →
  ts ≠ ∅ → (index <$> arguments precond) ∉ ts →
  is_ground_action_applicable g action state = Some false.
Proof.
  intros Hall Hin Hpos Hts Hne Hout.
  destruct (proj1 (Forall_forall _ _) Hall precond Hin)
    as (Hargs & _ & [sts Hsts]).
  unfold is_ground_action_applicable.
  eapply preconditions_hold_false; [done..|].
  destruct (precondition_holds_iff g state precond ts sts Hargs Hts Hsts)
    as ([] & Hb & Hiff); [|done].
  destruct (proj1 Hiff eq_refl) as (c & [[_ ->]|(? & _)] & Hc); [|done].
  rewrite Hpos in Hc. exfalso. by apply Hout, Hc.
Qed.

Lemma dynamic_relation_shadows_static_witness :
  get_tuples_from_static_relation sample_generator_static_p0 0
    = Some {[ [1]%Z ]} ∧
  is_ground_action_applicable sample_generator_static_p0
    sample_ground_action_p0 sample_state_p0 = Some false.
Proof.
  split; [reflexivity|].
  apply (dynamic_relation_shadows_static sample_generator_static_p0
           sample_ground_action_p0 sample_state_p0
           sample_positive_precondition {[ [2]%Z ]}).
  - repeat constructor; simpl; eauto.
  - apply list_elem_of_here.
  - reflexivity.
  - reflexivity.
  - intros Hempty. apply (not_elem_of_empty (C := gset (list Z)) [2]%Z).
    rewrite <- Hempty. by apply elem_of_singleton.
  - intros Hin%elem_of_singleton. discriminate Hin.
Defined.

(** ** The effects on the relations, in full *)

Lemma update_relation_inv rels p f rels' :
  update_relation rels p f = Some rels' →
  ∃ r, vec_at rels p = Some r ∧ rel_predicate_symbol r = p ∧
       rels' = <[Z.to_nat p := with_tuples r (f (rel_tuples r))]> rels.
Proof.
  unfold update_relation. intros Heq.
  destruct (vec_at rels p) as [r|] eqn:Hr; [|done]. simpl in Heq.
  case_guard as Hp; [|done]. simpl in Heq. unfold vec_set in Heq.
  case_decide; [|done]. simplify_eq. by exists r.
Qed.

Lemma update_relation_ext rels p f f' :
  (∀ ts, f ts = f' ts) → update_relation rels p f = update_relation rels p f'.
Proof.
  intros Hext. unfold update_relation.
  destruct (vec_at rels p) as [r|]; [|done]. simpl.
  case_guard; [|done]. simpl. by rewrite Hext.
Qed.

Lemma tuple_to_atom_inv tuple eff g ga g' :
  tuple_to_atom tuple eff g = Some (ga, g') →
  resolve_arguments tuple eff = Some ga ∧ ((-1)%Z ∉ ga) ∧
  g' = set_ground_atom g ga.
Proof.
  unfold tuple_to_atom. intros Heq.
  destruct (resolve_arguments tuple eff) as [ga0|]; [|done]. simpl in Heq.
  case_guard; [|done]. simpl in Heq. by simplify_eq.
Qed.

Lemma apply_lifted_effect_inv tuple eff rels g rels' g' :
  apply_lifted_effect tuple eff rels g = Some (rels', g') →
  ∃ ga r,
    resolve_arguments tuple eff = Some ga ∧ ((-1)%Z ∉ ga) ∧
    vec_at rels (predicate_symbol eff) = Some r ∧
    rel_predicate_symbol r = predicate_symbol eff ∧
    g' = set_ground_atom g ga ∧
    rels' = <[Z.to_nat (predicate_symbol eff) :=
               with_tuples r
                 (if negated eff then erase ga (rel_tuples r)
                  else insert_if_absent ga (rel_tuples r))]> rels.
Proof.
  unfold apply_lifted_effect. intros Heq.
  destruct (tuple_to_atom tuple eff g) as [[ga g1]|] eqn:Hta; [|done].
  simpl in Heq. apply tuple_to_atom_inv in Hta as (Hga & Hok & ->).
  destruct (update_relation rels _ _) as [rels1|] eqn:Hup; [|done].
  simpl in Heq. simplify_eq.
  apply update_relation_inv in Hup as (r & Hr & Hp & ->).
  exists ga, r. repeat (split; [done|]). by destruct (negated eff).
Qed.

Lemma apply_lifted_effects_app effects effects' tuple rels g :
  apply_lifted_effects (effects ++ effects') tuple rels g =
    '(rels1, g1) ← apply_lifted_effects effects tuple rels g;
    apply_lifted_effects effects' tuple rels1 g1.
Proof.
  revert rels g. induction effects as [|eff effects IH]; intros rels g;
    [done|]. simpl.
  destruct (apply_lifted_effect tuple eff rels g) as [[rels1 g1]|]; [|done].
  simpl. apply IH.
Qed.

(** One effect leaves alone the relations of the other predicates and, in
    its own relation, every tuple other than the one it resolves to. *)
Lemma apply_lifted_effect_frame tuple eff rels g rels' g' p ga r :
  apply_lifted_effect tuple eff rels g = Some (rels', g') →
  ¬ touches tuple p ga eff →
  vec_at rels p = Some r →
  ∃ r', vec_at rels' p = Some r' ∧
        rel_predicate_symbol r' = rel_predicate_symbol r ∧
        (ga ∈ rel_tuples r' ↔ ga ∈ rel_tuples r).
Proof.
  intros (ga0 & r0 & Hga0 & _ & Hr0 & _ & _ & ->)%apply_lifted_effect_inv
    Hnot Hr.
  pose proof (vec_at_Some_range _ _ _ Hr0) as Hrange.
  destruct (decide (predicate_symbol eff = p)) as [Hp|Hp].
  - subst p. simplify_eq. eexists. split; [by eapply vec_at_insert_eq|].
    split; [done|]. simpl.
    assert (ga0 ≠ ga) by (intros ->; by apply Hnot).
    destruct (negated eff).
    + unfold erase. set_solver.
    + rewrite insert_if_absent_union. set_solver.
  - exists r. split; [|done]. rewrite vec_at_insert_ne by (lia || done). done.
Qed.

Lemma apply_lifted_effects_frame effects tuple rels g rels' g' p ga r :
  apply_lifted_effects effects tuple rels g = Some (rels', g') →
  Forall (λ eff, ¬ touches tuple p ga eff) effects →
  vec_at rels p = Some r →
  ∃ r', vec_at rels' p = Some r' ∧
        rel_predicate_symbol r' = rel_predicate_symbol r ∧
        (ga ∈ rel_tuples r' ↔ ga ∈ rel_tuples r).
Proof.
  revert rels g r. induction effects as [|eff effects IH];
    intros rels g r Heq Hall Hr.
  { simpl in Heq. simplify_eq. by exists r. }
  apply Forall_cons in Hall as [Hnot Hall]. simpl in Heq.
  destruct (apply_lifted_effect tuple eff rels g) as [[rels1 g1]|] eqn:H1;
    [|done]. simpl in Heq.
  destruct (apply_lifted_effect_frame _ _ _ _ _ _ _ _ _ H1 Hnot Hr)
    as (r1 & Hr1 & Hsym1 & Hin1).
  destruct (IH _ _ _ Heq Hall Hr1) as (r' & Hr' & Hsym & Hin).
  exists r'. split; [done|]. split; [congruence|]. by rewrite Hin.
Qed.

(** X12. The effects of a lifted action are applied in the order of the
    list, so for a ground atom the last effect that resolves to it
    decides: after the call the atom is in the relation of its predicate
    exactly when that effect is positive, whatever came before. *)
Theorem last_effect_wins action before eff after tuple rels g rels' g' ga :
  get_effects action = before ++ eff :: after →
  apply_lifted_action_effects action tuple rels g = Some (rels', g') →
  resolve_arguments tuple eff = Some ga →
  Forall (λ e, ¬ touches tuple (predicate_symbol eff) ga e) after →
  ∃ r', vec_at rels' (predicate_symbol eff) = Some r' ∧
        (ga ∈ rel_tuples r' ↔ negated eff = false).
Proof.
  intros Heffects Heq Hga Hafter. unfold apply_lifted_action_effects in Heq.
  rewrite Heffects, apply_lifted_effects_app in Heq.
  destruct (apply_lifted_effects before tuple rels g) as [[rels1 g1]|];
    [|done]. simpl in Heq.
  destruct (apply_lifted_effect tuple eff rels1 g1) as [[rels2 g2]|] eqn:H2;
    [|done]. simpl in Heq.
  pose proof H2 as
    (ga0 & r & Hga0 & _ & Hr & _ & _ & ->)%apply_lifted_effect_inv.
  simplify_eq.
  destruct (apply_lifted_effects_frame after tuple _ g2 rels' g'
              (predicate_symbol eff) ga _ Heq Hafter
              (vec_at_insert_eq _ _ _ _ Hr)) as (r' & Hr' & _ & Hin).
  exists r'. split; [done|]. rewrite Hin. simpl.
  destruct (negated eff).
  - unfold erase. set_solver.
  - rewrite insert_if_absent_union. set_solver.
Qed.

Lemma last_effect_wins_witness :
  ∃ r', vec_at [mkRelation 0 {[ [4; 7]%Z ]}] 0 = Some r' ∧
        ([4; 7]%Z ∈ rel_tuples r' ↔ negated sample_effect = false).
Proof.
  apply (last_effect_wins
           {| get_index := 7; is_ground := false; get_precondition := [];
              get_effects := [sample_delete_effect; sample_effect];
              get_positive_nullary_precond := [];
              get_negative_nullary_precond := [];
              get_positive_nullary_effects := [];
              get_negative_nullary_effects := [] |}
           [sample_delete_effect] sample_effect [] [4]%Z
           [mkRelation 0 ∅] sample_generator
           [mkRelation 0 {[ [4; 7]%Z ]}]
           (set_ground_atom sample_generator [4; 7]%Z) [4; 7]%Z).
  - reflexivity.
  - vm_compute. reflexivity.
  - reflexivity.
  - constructor.
Defined.

Lemma update_relation_shape rels p f rels' :
  update_relation rels p f = Some rels' →
  (0 ≤ p < Z.of_nat (length rels))%Z ∧
  length rels' = length rels ∧
  (relations_wf rels → relations_wf rels') ∧
  (∀ q, q ≠ p → vec_at rels' q = vec_at rels q).
Proof.
  intros (r & Hr & Hp & ->)%update_relation_inv.
  pose proof (vec_at_Some_range _ _ _ Hr) as Hrange.
  split; [done|]. split; [by rewrite length_insert|]. split.
  - intros Hwf i r' Hi. destruct (decide (i = Z.to_nat p)) as [->|Hne].
    + rewrite list_lookup_insert_eq in Hi by lia. simplify_eq. simpl. lia.
    + rewrite list_lookup_insert_ne in Hi by done. by apply Hwf.
  - intros q Hq. apply vec_at_insert_ne; [lia|done].
Qed.

Lemma apply_lifted_effects_shape effects tuple rels g rels' g' :
  apply_lifted_effects effects tuple rels g = Some (rels', g') →
  length rels' = length rels ∧
  (relations_wf rels → relations_wf rels') ∧
  Forall (lifted_effect_defined (length rels) tuple) effects ∧
  (∀ q, Forall (λ e, predicate_symbol e ≠ q) effects →
        vec_at rels' q = vec_at rels q).
Proof.
  revert rels g. induction effects as [|eff effects IH]; intros rels g Heq.
  { simpl in Heq. by simplify_eq. }
  simpl in Heq. unfold apply_lifted_effect in Heq.
  destruct (tuple_to_atom tuple eff g) as [[ga g1]|] eqn:Hta; [|done].
  simpl in Heq. apply tuple_to_atom_inv in Hta as (Hga & Hok & ->).
  destruct (update_relation rels _ _) as [rels1|] eqn:Hup; [|done].
  simpl in Heq.
  apply update_relation_shape in Hup as (Hp & Hlen1 & Hwf1 & Hframe1).
  apply IH in Heq as (Hlen & Hwf & Hall & Hframe).
  split; [congruence|]. split; [auto|]. split.
  - constructor; [split; [done|by exists ga]|by rewrite <- Hlen1].
  - intros q [Hq Hrest]%Forall_cons. rewrite Hframe by done.
    by apply Hframe1.
Qed.

Lemma ground_effect_atom_Some eff ga :
  ground_effect_atom eff = Some ga →
  Forall (λ a, constant a = true) (arguments eff) ∧
  ga = index <$> arguments eff.
Proof.
  unfold ground_effect_atom. intros Hall%mapM_Some_1.
  induction Hall as [|a v args ga Ha _ [IH ->]].
  { split; [apply Forall_nil_2|done]. }
  case_guard as Hc; [|done]. change (Some (index a) = Some v) in Ha.
  simplify_eq. split; [by apply Forall_cons_2|reflexivity].
Qed.

Lemma apply_ground_effects_shape effects rels rels' :
  apply_ground_effects effects rels = Some rels' →
  length rels' = length rels ∧
  (relations_wf rels → relations_wf rels') ∧
  Forall (ground_effect_defined (length rels)) effects ∧
  (∀ q, Forall (λ e, predicate_symbol e ≠ q) effects →
        vec_at rels' q = vec_at rels q).
Proof.
  revert rels. induction effects as [|eff effects IH]; intros rels Heq.
  { simpl in Heq. by simplify_eq. }
  simpl in Heq. unfold apply_ground_effect in Heq.
  destruct (ground_effect_atom eff) as [ga|] eqn:Hga; [|done].
  simpl in Heq.
  destruct (update_relation rels _ _) as [rels1|] eqn:Hup; [|done].
  simpl in Heq.
  apply update_relation_shape in Hup as (Hp & Hlen1 & Hwf1 & Hframe1).
  apply IH in Heq as (Hlen & Hwf & Hall & Hframe).
  split; [congruence|]. split; [auto|]. split.
  - constructor; [split; [done|by rewrite Hga]|by rewrite <- Hlen1].
  - intros q [Hq Hrest]%Forall_cons. rewrite Hframe by done.
    by apply Hframe1.
Qed.

(** What a call of [generate_successors] that returns says about its
    arguments and its result. *)
Lemma generate_successors_inv op action state g state' g' :
  generate_successors op action state g = Some (state', g') →
  apply_nullary_effects action (get_nullary_atoms state)
    = Some (get_nullary_atoms state') ∧
  length (get_relations state') = length (get_relations state) ∧
  (relations_wf (get_relations state) →
   relations_wf (get_relations state')) ∧
  (if is_ground action
   then Forall (ground_effect_defined (length (get_relations state)))
          (get_effects action)
   else Forall (lifted_effect_defined (length (get_relations state))
                  (get_instantiation op))
          (get_effects action)) ∧
  (∀ q, Forall (λ e, predicate_symbol e ≠ q) (get_effects action) →
        vec_at (get_relations state') q = vec_at (get_relations state) q).
Proof.
  unfold generate_successors. intros Heq.
  destruct (apply_nullary_effects action (get_nullary_atoms state))
    as [atoms'|]; [|done]. simpl in Heq.
  destruct (is_ground action).
  - unfold apply_ground_action_effects in Heq.
    destruct (apply_ground_effects _ _) as [rels'|] eqn:Heff; [|done].
    simpl in Heq. simplify_eq. simpl.
    apply apply_ground_effects_shape in Heff as (? & ? & ? & ?). done.
  - unfold apply_lifted_action_effects in Heq.
    destruct (apply_lifted_effects _ _ _ _) as [[rels' g1]|] eqn:Heff;
      [|done].
    simpl in Heq. simplify_eq. simpl.
    apply apply_lifted_effects_shape in Heff as (? & ? & ? & ?). done.
Qed.

(** X13. [generate_successors] keeps the invariants of a state: the
    successor has as many relations and as many nullary atoms as the state
    it comes from, its relation [i] still carries the predicate symbol
    [i], and the same action under the same instantiation can be applied
    to it again. *)
Theorem generate_successors_keeps_shape op action state g state' g' :
  relations_wf (get_relations state) →
  generate_successors op action state g = Some (state', g') →
  relations_wf (get_relations state') ∧
  length (get_relations state') = length (get_relations state) ∧
  length (get_nullary_atoms state') = length (get_nullary_atoms state) ∧
  successor_defined op action state'.
Proof.
  intros Hwf (Hnull & Hlen & Hwf' & Heffects & _)%generate_successors_inv.
  assert (Hdef : is_Some (apply_nullary_effects action
                            (get_nullary_atoms state))) by by eexists.
  apply nullary_effect_bits_in_range in Hdef as [Hneg Hpos].
  destruct (apply_nullary_effects_spec action _ Hneg Hpos)
    as (atoms' & Heq & Hlena & _).
  assert (atoms' = get_nullary_atoms state') as -> by congruence.
  split; [auto|]. split; [done|]. split; [done|].
  unfold successor_defined. rewrite Hlena, Hlen. auto.
Qed.

Lemma generate_successors_keeps_shape_witness :
  ∃ state' g',
    generate_successors sample_operator sample_lifted_action sample_state
      sample_generator = Some (state', g') ∧
    relations_wf (get_relations state') ∧
    length (get_relations state') = length (get_relations sample_state) ∧
    length (get_nullary_atoms state')
      = length (get_nullary_atoms sample_state) ∧
    successor_defined sample_operator sample_lifted_action state'.
Proof.
  destruct (generate_successors sample_operator sample_lifted_action
              sample_state sample_generator) as [[state' g']|] eqn:Heq;
    [|vm_compute in Heq; discriminate Heq].
  exists state', g'. split; [reflexivity|].
  apply (generate_successors_keeps_shape sample_operator
           sample_lifted_action sample_state sample_generator state' g');
    [|exact Heq].
  intros [|[|i]] r Hr; simpl in Hr; [by simplify_eq..|discriminate Hr].
Defined.

(** X14. [generate_successors] changes only the relations of the
    predicates that the effects of the action name: the relation of every
    other predicate is in the successor what it is in the state. *)
Theorem generate_successors_untouched_relations
    op action state g state' g' q :
  generate_successors op action state g = Some (state', g') →
  Forall (λ eff, predicate_symbol eff ≠ q) (get_effects action) →
  vec_at (get_relations state') q = vec_at (get_relations state) q.
Proof.
  intros (_ & _ & _ & _ & Hframe)%generate_successors_inv Hq.
  by apply Hframe.
Qed.

Lemma generate_successors_untouched_relations_witness :
  ∃ state' g',
    generate_successors sample_operator sample_ground_effects sample_state
      sample_generator = Some (state', g') ∧
    vec_at (get_relations state') 0 = vec_at (get_relations sample_state) 0.
Proof.
  destruct (generate_successors sample_operator sample_ground_effects
              sample_state sample_generator) as [[state' g']|] eqn:Heq;
    [|vm_compute in Heq; discriminate Heq].
  exists state', g'. split; [reflexivity|].
  apply (generate_successors_untouched_relations sample_operator
           sample_ground_effects sample_state sample_generator state' g' 0);
    [exact Heq|].
  repeat constructor; simpl; lia.
Defined.

(** X15. On a state whose relations carry their own predicate symbols,
    [generate_successors] returns exactly when the call is well defined:
    every nullary effect bit has a position among the nullary atoms, every
    effect names a predicate that has a relation, and the arguments of
    every effect resolve (constants for a ground action; for a lifted one,
    slots inside the instantiation and no value [-1]).  In every other
    case it leaves a vector or fails an assertion. *)
Theorem generate_successors_defined_iff op action state g :
  relations_wf (get_relations state) →
  is_Some (generate_successors op action state g) ↔
  successor_defined op action state.
Proof.
  intros Hwf. split.
  - intros [[state' g'] Heq].
    apply generate_successors_inv in Heq as (Hnull & _ & _ & Heffects & _).
    assert (Hdef : is_Some (apply_nullary_effects action
                              (get_nullary_atoms state))) by by eexists.
    apply nullary_effect_bits_in_range in Hdef as [Hneg Hpos].
    by repeat split.
  - intros Hdef.
    destruct (generate_successors_defined op action state g Hdef)
      as (state' & g' & -> & _). by eexists.
Qed.

Lemma generate_successors_defined_iff_witness :
  is_Some (generate_successors sample_operator sample_lifted_action
             sample_state sample_generator) ↔
  successor_defined sample_operator sample_lifted_action sample_state.
Proof.
  apply (generate_successors_defined_iff sample_operator
           sample_lifted_action sample_state sample_generator).
  intros [|[|i]] r Hr; simpl in Hr; [by simplify_eq..|discriminate Hr].
Defined.

Lemma resolve_constant_arguments tuple (args : list Argument) :
  Forall (λ a, constant a = true) args →
  mapM (λ a, if constant a then Some (index a) else vec_at tuple (index a))
       args = Some (index <$> args).
Proof.
  intros Hall. apply mapM_Some_2.
  induction Hall as [|a args Ha _ IH]; [by constructor|].
  constructor; [by rewrite Ha|exact IH].
Qed.

Lemma apply_lifted_effect_constant tuple eff rels g :
  constant_effect eff →
  apply_lifted_effect tuple eff rels g =
    rels' ← apply_ground_effect eff rels;
    Some (rels', set_ground_atom g (index <$> arguments eff)).
Proof.
  intros Hc. unfold constant_effect in Hc.
  assert (Hconst : Forall (λ a, constant a = true) (arguments eff)).
  { eapply Forall_impl; [exact Hc|]. by intros a [? _]. }
  assert (Hok : (-1)%Z ∉ index <$> arguments eff).
  { intros (a & Ha & Hin)%list_elem_of_fmap.
    by destruct (proj1 (Forall_forall _ _) Hc a Hin) as [_ []]. }
  unfold apply_lifted_effect, apply_ground_effect, ground_effect_atom.
  rewrite (tuple_to_atom_Some tuple eff g (index <$> arguments eff))
    by (done || by apply resolve_constant_arguments).
  rewrite (constant_arguments_tuple _ Hconst). simpl.
  destruct (negated eff); [done|].
  rewrite (update_relation_ext rels (predicate_symbol eff) _
             (insert_atom (index <$> arguments eff))); [done|].
  intros ts. case_decide; [|done]. unfold insert_atom. set_solver.
Qed.

(** X16. The two paths of [generate_successors] agree where both apply:
    for an action whose effects have only constant arguments, none of them
    [-1], applying the effects as those of a lifted action, under any
    instantiation, changes the relations as applying them as those of a
    ground action does, and fails when that fails. *)
Theorem lifted_effects_agree_with_ground action tuple rels g :
  Forall constant_effect (get_effects action) →
  fst <$> apply_lifted_action_effects action tuple rels g =
  apply_ground_action_effects action rels.
Proof.
  unfold apply_lifted_action_effects, apply_ground_action_effects.
  intros Hall. revert rels g.
  induction Hall as [|eff effects Hc _ IH]; intros rels g; [done|].
  simpl. rewrite (apply_lifted_effect_constant _ _ _ _ Hc).
  destruct (apply_ground_effect eff rels) as [rels1|]; [|done].
  simpl. apply IH.
Qed.

Lemma lifted_effects_agree_with_ground_witness :
  fst <$> apply_lifted_action_effects sample_ground_effects [4]%Z
            (get_relations sample_state) sample_generator =
  apply_ground_action_effects sample_ground_effects
    (get_relations sample_state).
Proof.
  apply (lifted_effects_agree_with_ground sample_ground_effects [4]%Z
           (get_relations sample_state) sample_generator).
  repeat constructor; simpl; lia.
Defined.

(** X17. [tuple_to_atom] returns exactly when every argument of the effect
    has a value other than [-1]: a constant its own index, a variable the
    entry of the instantiation at its slot, which must exist.  An
    instantiation that is too short, or holds [-1] at a slot the effect
    uses, stops the call. *)
Theorem tuple_to_atom_defined_iff tuple eff g :
  is_Some (tuple_to_atom tuple eff g) ↔
  Forall (λ a, ∃ v, argument_value tuple a = Some v ∧ v ≠ (-1)%Z)
         (arguments eff).
Proof.
  unfold tuple_to_atom, resolve_arguments. split.
  - intros [[ga g'] Heq].
    destruct (mapM _ (arguments eff)) as [ga0|] eqn:Hm; [|done].
    simpl in Heq. case_guard as Hok; [|done]. clear Heq.
    apply mapM_Some_1 in Hm.
    induction Hm as [|a v args ga1 Ha _ IH]; [apply Forall_nil_2|].
    apply not_elem_of_cons in Hok as [Hv Hok].
    apply Forall_cons_2; [|by apply IH]. exists v. by split.
  - intros Hall.
    assert (∃ ga, mapM (λ a, if constant a then Some (index a)
                            else vec_at tuple (index a)) (arguments eff)
                  = Some ga ∧ (-1)%Z ∉ ga) as (ga & -> & Hok).
    { induction Hall as [|a args (v & Hv & Hne) _ (ga & IH & Hok)].
      - exists []. split; [done|]. apply not_elem_of_nil.
      - exists (v :: ga). split.
        + apply mapM_Some_2. constructor; [exact Hv|by apply mapM_Some_1].
        + apply not_elem_of_cons. split; [congruence|done]. }
    simpl. rewrite option_guard_True by done. by eexists.
Qed.

Example tuple_to_atom_unset_binding :
  tuple_to_atom [-1]%Z sample_effect sample_generator = None ∧
  tuple_to_atom [] sample_effect sample_generator = None ∧
  tuple_to_atom [4]%Z sample_effect sample_generator
    = Some ([4; 7]%Z, set_ground_atom sample_generator [4; 7]%Z).
Proof. repeat split; reflexivity. Qed.

(** ** The applicability query, in full *)

Section applicability_query.
Variable index_is_variable : Table → nat → bool.
Variable instantiate : DBState → ActionSchema → DBState → Table.

Lemma canonical_tuple_defined t row :
  NoDup (free_var_indices index_is_variable t) →
  (∀ s, s ∈ free_var_indices index_is_variable t →
        (0 ≤ s < Z.of_nat (length (free_var_indices index_is_variable t)))%Z) →
  length row = length (tuple_index t) →
  ∃ ordered,
    canonical_tuple index_is_variable t row = Some ordered ∧
    length ordered = length (free_var_indices index_is_variable t) ∧
    ∀ p s, tuple_index t !! p = Some s → index_is_variable t p = true →
           vec_at ordered s = row !! p.
Proof.
  intros Hnd Hslot Hrow. unfold canonical_tuple, free_var_indices in *.
  unfold compute_map_indices_to_table_positions in *.
  pose proof (variable_columns_from_spec index_is_variable t 0 (tuple_index t))
    as (Hlen & Hsound & Hcomplete).
  destruct (variable_columns_from index_is_variable t 0 (tuple_index t))
    as [fvi mitp]. simpl in *.
  destruct (order_tuple_spec fvi mitp row (replicate (length fvi) 0%Z))
    as (ordered & Heq & Hlen' & Hin & _); [done..| | |].
  - intros s Hs. rewrite length_replicate. by apply Hslot.
  - intros p (k & Hk)%list_elem_of_lookup.
    destruct (lookup_lt_is_Some_2 fvi k) as [s Hs].
    { rewrite Hlen. by eapply lookup_lt_Some. }
    destruct (Hsound k s p Hs Hk) as (q & -> & _ & Hc & _).
    rewrite vec_at_of_nat. apply lookup_lt_is_Some_2.
    apply lookup_lt_Some in Hc. lia.
  - exists ordered. split; [done|].
    rewrite length_replicate in Hlen'. split; [done|].
    intros p s Hp Hv. destruct (Hcomplete p s) as (k & Hk & Hk');
      [lia|by replace (p - 0) with p by lia|done|].
    rewrite (Hin k s _ Hk Hk'). apply vec_at_of_nat.
Qed.

(** X18. The applicability query treats the action schemas one by one and
    in order: the operators of a list of schemas are those of a first part
    followed by those of the rest, and the query fails when one of the two
    does. *)
Theorem get_applicable_actions_app g actions actions' state :
  get_applicable_actions index_is_variable instantiate g
    (actions ++ actions') state =
  ops ← get_applicable_actions index_is_variable instantiate g actions state;
  ops' ← get_applicable_actions index_is_variable instantiate g actions'
           state;
  Some (ops ++ ops').
Proof.
  induction actions as [|action actions IH]; simpl.
  { by destruct (get_applicable_actions _ _ g actions' state). }
  destruct (applicable_operators_of _ _ g state action) as [ops0|]; [|done].
  simpl. rewrite IH.
  destruct (get_applicable_actions _ _ g actions state) as [ops|]; [|done].
  simpl.
  destruct (get_applicable_actions _ _ g actions' state) as [ops'|]; [|done].
  simpl. by rewrite app_assoc.
Qed.

Lemma applicable_operators_of_sound g state action ops op :
  applicable_operators_of index_is_variable instantiate g state action
    = Some ops →
  op ∈ ops →
  operator_of index_is_variable instantiate g state action op.
Proof.
  unfold applicable_operators_of, operator_of. intros Heq Hin.
  destruct (is_trivially_inapplicable state action) as [[]|]; simpl in Heq;
    [simplify_eq; by apply elem_of_nil in Hin| |done].
  destruct (is_ground action).
  - destruct (is_ground_action_applicable g action state) as [[]|];
      simpl in Heq; simplify_eq.
    + apply list_elem_of_singleton in Hin as ->. done.
    + by apply elem_of_nil in Hin.
  - apply mapM_Some_1 in Heq.
    apply list_elem_of_lookup in Hin as [k Hk].
    destruct (Forall2_lookup_r _ _ _ _ _ Heq Hk) as (row & Hrow & Hop).
    destruct (canonical_tuple _ _ row) as [ordered|] eqn:Hc; [|done].
    simpl in Hop. simplify_eq. simpl. split; [done|]. split; [done|].
    exists row. split; [|done]. apply list_elem_of_lookup. eauto.
Qed.

(** X19. Every operator the applicability query returns belongs to one of
    the action schemas it was given: it carries the index of a schema that
    is not trivially inapplicable; for a ground schema its instantiation
    is empty and the schema passed the ground check, for a lifted schema
    its instantiation is the canonical order of a row of the join. *)
Theorem get_applicable_actions_sound g actions state ops op :
  get_applicable_actions index_is_variable instantiate g actions state
    = Some ops →
  op ∈ ops →
  ∃ action, action ∈ actions ∧
            operator_of index_is_variable instantiate g state action op.
Proof.
  revert ops. induction actions as [|action actions IH]; intros ops Heq Hin.
  { simpl in Heq. simplify_eq. by apply elem_of_nil in Hin. }
  simpl in Heq.
  destruct (applicable_operators_of _ _ g state action) as [ops0|] eqn:H0;
    [|done]. simpl in Heq.
  destruct (get_applicable_actions _ _ g actions state) as [ops1|]; [|done].
  simpl in Heq. simplify_eq.
  apply elem_of_app in Hin as [Hin|Hin].
  - exists action. split; [apply list_elem_of_here|].
    by eapply applicable_operators_of_sound.
  - destruct (IH ops1 eq_refl Hin) as (action' & Hin' & Hop).
    exists action'. split; [by apply list_elem_of_further|done].
Qed.

(** X20. A lifted action schema that is not trivially inapplicable
    contributes one operator for each row of its join table, in the order
    of the rows; each carries the index of the schema and a binding with
    one entry per variable column, holding at every slot id the entry of
    the row at the column with that slot id. *)
Theorem get_applicable_actions_lifted g action state :
  is_ground action = false →
  is_trivially_inapplicable state action = Some false →
  join_table_wf index_is_variable
    (instantiate (static_information g) action state) →
  ∃ ops,
    get_applicable_actions index_is_variable instantiate g [action] state
      = Some ops ∧
    length ops
      = length (tuples (instantiate (static_information g) action state)) ∧
    ∀ k row,
      tuples (instantiate (static_information g) action state) !! k
        = Some row →
      ∃ op, ops !! k = Some op ∧ op_get_index op = get_index action ∧
        length (get_instantiation op)
          = length (free_var_indices index_is_variable
                      (instantiate (static_information g) action state)) ∧
        ∀ p s,
          tuple_index (instantiate (static_information g) action state) !! p
            = Some s →
          index_is_variable
            (instantiate (static_information g) action state) p = true →
          vec_at (get_instantiation op) s = row !! p.
Proof.
  intros Hlifted Htriv (Hwf & Hnd & Hslot). simpl.
  unfold applicable_operators_of. rewrite Htriv, Hlifted. simpl.
  set (t := instantiate (static_information g) action state) in *.
  set (f := λ row, ordered ← canonical_tuple index_is_variable t row;
                   Some {| op_get_index := get_index action;
                           get_instantiation := ordered |}).
  assert (Hdef : Forall (is_Some ∘ f) (tuples t)).
  { apply Forall_forall. intros row Hrow. unfold f. simpl.
    destruct (canonical_tuple_defined t row Hnd Hslot) as (o & -> & _).
    - by apply (proj1 (Forall_forall _ _) Hwf).
    - by eexists. }
  apply mapM_is_Some_2 in Hdef as [ops Hops]. fold f. rewrite Hops. simpl.
  exists (ops ++ []). apply mapM_Some_1 in Hops. rewrite app_nil_r.
  split; [done|]. split; [symmetry; by eapply Forall2_length|].
  intros k row Hrow.
  destruct (Forall2_lookup_l _ _ _ _ _ Hops Hrow) as (op & Hop & Hf).
  exists op. split; [done|]. unfold f in Hf.
  destruct (canonical_tuple_defined t row Hnd Hslot)
    as (o & Ho & Hlen & Hat).
  { apply (proj1 (Forall_forall _ _) Hwf). apply list_elem_of_lookup. eauto. }
  rewrite Ho in Hf. simpl in Hf. simplify_eq. done.
Qed.

End applicability_query.

Lemma get_applicable_actions_sound_witness :
  ∃ action,
    action ∈ [sample_ground_action; sample_lifted_action] ∧
    operator_of nonneg_is_variable sample_instantiate sample_generator
      sample_state action
      {| op_get_index := 5; get_instantiation := [6]%Z |}.
Proof.
  apply (get_applicable_actions_sound nonneg_is_variable sample_instantiate
           sample_generator [sample_ground_action; sample_lifted_action]
           sample_state
           [ {| op_get_index := 5; get_instantiation := [4]%Z |};
             {| op_get_index := 5; get_instantiation := [6]%Z |} ]).
  - vm_compute. reflexivity.
  - apply list_elem_of_further, list_elem_of_here.
Defined.

Lemma get_applicable_actions_lifted_witness :
  ∃ ops,
    get_applicable_actions nonneg_is_variable sample_instantiate
      sample_generator [sample_lifted_action] sample_state = Some ops ∧
    length ops = 2.
Proof.
  destruct (get_applicable_actions_lifted nonneg_is_variable
              sample_instantiate sample_generator sample_lifted_action
              sample_state) as (ops & Hops & Hlen & _).
  - reflexivity.
  - reflexivity.
  - split; [repeat constructor|]. split.
    + change (NoDup [0]%Z). repeat constructor. set_solver.
    + intros s Hs. change (s ∈ [0]%Z) in Hs. change (0 ≤ s < 1)%Z.
      set_unfold in Hs. lia.
  - exists ops. split; [exact Hops|exact Hlen].
Defined.

(** ** The canonical order and the order of the columns *)

Lemma covers_all_slots (l : list Z) (k : Z) :
  NoDup l → (∀ s, s ∈ l → (0 ≤ s < Z.of_nat (length l))%Z) →
  (0 ≤ k < Z.of_nat (length l))%Z → k ∈ l.
Proof.
  intros Hnd Hrange Hk.
  assert (Hsub : l ⊆+ seqZ 0 (Z.of_nat (length l))).
  { apply NoDup_submseteq; [done|]. intros s Hs. apply elem_of_seqZ.
    specialize (Hrange s Hs). lia. }
  apply submseteq_length_Permutation in Hsub.
  - rewrite Hsub. apply elem_of_seqZ. lia.
  - rewrite length_seqZ. lia.
Qed.

Section column_order.
Variable index_is_variable : Table → nat → bool.

(** X21. The binding does not depend on how the join table lays out its
    columns: two well-formed tables and rows that give the same values to
    the same variable slots, in whatever column order and with whatever
    constant columns in between, have the same canonical tuple. *)
Theorem canonical_tuple_column_order t row t' row' :
  join_table_wf index_is_variable t → row ∈ tuples t →
  join_table_wf index_is_variable t' → row' ∈ tuples t' →
  (∀ s v, column_value index_is_variable t row s v ↔
          column_value index_is_variable t' row' s v) →
  ∃ ordered,
    canonical_tuple index_is_variable t row = Some ordered ∧
    canonical_tuple index_is_variable t' row' = Some ordered.
Proof.
  intros (Hwf & Hnd & Hslot) Hrow (Hwf' & Hnd' & Hslot') Hrow' Hsame.
  assert (Hlen : length row = length (tuple_index t))
    by by apply (proj1 (Forall_forall _ _) Hwf).
  assert (Hlen' : length row' = length (tuple_index t'))
    by by apply (proj1 (Forall_forall _ _) Hwf').
  destruct (canonical_tuple_defined index_is_variable t row Hnd Hslot Hlen)
    as (o & Ho & Hn & Hat).
  destruct (canonical_tuple_defined index_is_variable t' row' Hnd' Hslot'
              Hlen') as (o' & Ho' & Hn' & Hat').
  assert (Hvalue : ∀ u urow s, length urow = length (tuple_index u) →
            s ∈ free_var_indices index_is_variable u →
            ∃ v, column_value index_is_variable u urow s v).
  { intros u urow s Hl (p & Hp & Hv)%elem_of_free_var_indices.
    destruct (lookup_lt_is_Some_2 urow p) as [v Hpv].
    { rewrite Hl. by eapply lookup_lt_Some. }
    exists v, p. done. }
  assert (Hslots : ∀ s, s ∈ free_var_indices index_is_variable t ↔
                        s ∈ free_var_indices index_is_variable t').
  { intros s. split; intros Hs.
    - destruct (Hvalue t row s Hlen Hs) as [v Hv].
      apply Hsame in Hv as (p & Hp & Hvar & _).
      apply elem_of_free_var_indices. eauto.
    - destruct (Hvalue t' row' s Hlen' Hs) as [v Hv].
      apply Hsame in Hv as (p & Hp & Hvar & _).
      apply elem_of_free_var_indices. eauto. }
  assert (Hsize : length (free_var_indices index_is_variable t)
                  = length (free_var_indices index_is_variable t')).
  { apply Permutation_length. by apply NoDup_Permutation. }
  exists o. split; [done|]. rewrite Ho'. f_equal.
  apply list_eq. intros k.
  destruct (decide (k < length o)) as [Hk|Hk];
    [|by rewrite !lookup_ge_None_2 by lia].
  assert (Hin : Z.of_nat k ∈ free_var_indices index_is_variable t).
  { apply covers_all_slots; [done..|lia]. }
  destruct (Hvalue t row _ Hlen Hin) as [v Hv].
  pose proof (proj1 (Hsame _ _) Hv) as (p' & Hp' & Hvar' & Hr').
  destruct Hv as (p & Hp & Hvar & Hr).
  rewrite <- !vec_at_of_nat.
  rewrite (Hat p _ Hp Hvar), (Hat' p' _ Hp' Hvar'). congruence.
Qed.

End column_order.

Lemma canonical_tuple_column_order_witness :
  ∃ ordered,
    canonical_tuple nonneg_is_variable sample_columns_v1_v0 [5; 3]%Z
      = Some ordered ∧
    canonical_tuple nonneg_is_variable sample_columns_v0_c_v1 [3; 7; 5]%Z
      = Some ordered.
Proof.
  apply (canonical_tuple_column_order nonneg_is_variable).
  - split; [repeat constructor|]. split.
    + change (NoDup [1; 0]%Z). repeat constructor; set_solver.
    + intros s Hs. change (s ∈ [1; 0]%Z) in Hs. change (0 ≤ s < 2)%Z.
      set_unfold in Hs. lia.
  - apply list_elem_of_here.
  - split; [repeat constructor|]. split.
    + change (NoDup [0; 1]%Z). repeat constructor; set_solver.
    + intros s Hs. change (s ∈ [0; 1]%Z) in Hs. change (0 ≤ s < 2)%Z.
      set_unfold in Hs. lia.
  - apply list_elem_of_here.
  - intros s v. split.
    + intros ([|[|p]] & Hp & Hvar & Hr); simpl in Hp, Hr;
        [| |discriminate Hp]; simplify_eq.
      * exists 2. done.
      * exists 0. done.
    + intros ([|[|[|p]]] & Hp & Hvar & Hr); simpl in Hp, Hr;
        [| | |discriminate Hp]; simplify_eq.
      * exists 1. done.
      * exists 0. done.
Defined.

(** ** The constructor *)

Lemma push_object_spec opt ty idx :
  (0 ≤ ty < Z.of_nat (length opt))%Z →
  ∃ opt', push_object opt ty idx = Some opt' ∧
    length opt' = length opt ∧
    ∀ ty' x, listed opt' ty' x ↔ listed opt ty' x ∨ ty' = ty ∧ x = idx.
Proof.
  intros Hty. unfold push_object.
  destruct (lookup_lt_is_Some_2 opt (Z.to_nat ty)) as [objs Hobjs]; [lia|].
  assert (Hat : vec_at opt ty = Some objs).
  { unfold vec_at. by rewrite decide_True by lia. }
  rewrite Hat. simpl. unfold vec_set. rewrite decide_True by done.
  eexists. split; [done|]. split; [apply length_insert|].
  intros ty' x. unfold listed. destruct (decide (ty' = ty)) as [->|Hne].
  - rewrite (vec_at_insert_eq _ _ _ _ Hat). rewrite Hat. split.
    + intros (l & [= <-] & [Hin|Hin%list_elem_of_singleton]%elem_of_app);
        eauto.
    + intros [(l & [= <-] & Hin)|[_ ->]]; eexists; (split; [done|]);
        apply elem_of_app; [by left|right; by apply list_elem_of_singleton].
  - rewrite vec_at_insert_ne by (lia || done). naive_solver.
Qed.

Lemma push_types_spec types idx opt :
  Forall (λ ty, (0 ≤ ty < Z.of_nat (length opt))%Z) types →
  ∃ opt', push_types types idx opt = Some opt' ∧
    length opt' = length opt ∧
    ∀ ty' x, listed opt' ty' x ↔
             listed opt ty' x ∨ ty' ∈ types ∧ x = idx.
Proof.
  revert opt. induction types as [|ty types IH]; intros opt Hall.
  { exists opt. split; [done|]. split; [done|]. intros ty' x.
    split; [auto|]. intros [?|[Hin _]]; [done|]. by apply elem_of_nil in Hin. }
  apply Forall_cons in Hall as [Hty Hall]. simpl.
  destruct (push_object_spec opt ty idx Hty) as (opt1 & -> & Hlen1 & H1).
  simpl. destruct (IH opt1) as (opt' & -> & Hlen & H2).
  { by rewrite Hlen1. }
  exists opt'. split; [done|]. split; [congruence|].
  intros ty' x. rewrite H2, H1, elem_of_cons. naive_solver.
Qed.

Lemma push_objects_spec objs opt :
  Forall (λ obj, Forall (λ ty, (0 ≤ ty < Z.of_nat (length opt))%Z)
                   (getTypes obj)) objs →
  ∃ opt', push_objects objs opt = Some opt' ∧
    length opt' = length opt ∧
    ∀ ty x, listed opt' ty x ↔
            listed opt ty x ∨
            ∃ obj, obj ∈ objs ∧ getIndex obj = x ∧ ty ∈ getTypes obj.
Proof.
  revert opt. induction objs as [|obj objs IH]; intros opt Hall.
  { exists opt. split; [done|]. split; [done|]. intros ty x.
    split; [auto|]. intros [?|(obj & Hin & _)]; [done|].
    by apply elem_of_nil in Hin. }
  apply Forall_cons in Hall as [Hobj Hall]. simpl.
  destruct (push_types_spec (getTypes obj) (getIndex obj) opt Hobj)
    as (opt1 & -> & Hlen1 & H1).
  simpl. destruct (IH opt1) as (opt' & -> & Hlen & H2).
  { by rewrite Hlen1. }
  exists opt'. split; [done|]. split; [congruence|].
  intros ty x. rewrite H2, H1. split.
  - intros [[?|[Hin ->]]|(obj' & Hin & Hx & Hty)]; [by left|right..].
    + exists obj. split; [apply list_elem_of_here|done].
    + exists obj'. split; [by apply list_elem_of_further|done].
  - intros [?|(obj' & [->|Hin]%elem_of_cons & Hx & Hty)]; [by left; left| |].
    + left. right. done.
    + right. exists obj'. done.
Qed.

(** X22. When every type of every object is one of the declared types,
    the constructor returns a generator that holds the static information
    of the task and an empty scratch atom; it has one list of objects per
    declared type, and an object index is listed under a type exactly when
    an object with that index has the type; it has one static flag per
    relation of the static information, true exactly when the relation
    has a tuple. *)
Theorem new_SuccessorGenerator_spec task :
  Forall (λ obj, Forall (λ ty, (0 ≤ ty
                                < Z.of_nat (length (type_names task)))%Z)
                   (getTypes obj)) (objects task) →
  ∃ g, new_SuccessorGenerator task = Some g ∧
    static_information g = get_static_info task ∧
    ground_atom g = [] ∧
    length (obj_per_type g) = length (type_names task) ∧
    (∀ ty x, listed (obj_per_type g) ty x ↔
             ∃ obj, obj ∈ objects task ∧ getIndex obj = x ∧
                    ty ∈ getTypes obj) ∧
    length (is_predicate_static g)
      = length (get_relations (get_static_info task)) ∧
    (∀ i r, get_relations (get_static_info task) !! i = Some r →
            (is_predicate_static g !! i = Some true ↔ rel_tuples r ≠ ∅) ∧
            (is_predicate_static g !! i = Some false ↔ rel_tuples r = ∅)).
Proof.
  intros Hall. unfold new_SuccessorGenerator.
  destruct (push_objects_spec (objects task)
              (replicate (length (type_names task)) []))
    as (opt & -> & Hlen & Hlisted).
  { by rewrite length_replicate. }
  eexists. split; [done|]. simpl. split; [done|]. split; [done|].
  rewrite length_replicate in Hlen. split; [done|]. split; [|split].
  - intros ty x. rewrite Hlisted. split; [|by right].
    intros [(objs & Hobjs & Hin)|?]; [|done]. exfalso.
    unfold vec_at in Hobjs. case_decide; [|done].
    apply lookup_replicate in Hobjs as [-> _]. by apply elem_of_nil in Hin.
  - unfold compute_is_predicate_static. by rewrite length_fmap.
  - intros i r Hr. unfold compute_is_predicate_static.
    rewrite list_lookup_fmap, Hr. simpl.
    split; (split; [intros [= Hb]|intros Hne; f_equal]).
    + apply negb_true_iff, bool_decide_eq_false in Hb. done.
    + by apply negb_true_iff, bool_decide_eq_false.
    + apply negb_false_iff, bool_decide_eq_true in Hb. done.
    + by apply negb_false_iff, bool_decide_eq_true.
Qed.

Lemma new_SuccessorGenerator_spec_witness :
  ∃ g, new_SuccessorGenerator sample_task = Some g ∧
       obj_per_type g = [[0; 1]; [1; 2]]%Z ∧
       is_predicate_static g = [true; false].
Proof.
  destruct (new_SuccessorGenerator_spec sample_task) as (g & Hg & _).
  - repeat constructor; simpl; lia.
  - exists g. split; [exact Hg|].
    vm_compute in Hg. injection Hg as <-. split; reflexivity.
Defined.

(** The constructor writes out of bounds for an object of an undeclared
    type. *)
Example new_SuccessorGenerator_undeclared_type :
  new_SuccessorGenerator
    {| get_static_info := get_static_info sample_task;
       type_names := ["object"];
       objects := [mkObject 0 [0]%Z; mkObject 1 [0; 1]%Z] |} = None.
Proof. reflexivity. Qed.

(** ** The heuristic factory and the case of the name *)

Lemma iequals_trans_l a b c :
  iequals a b = true → iequals a c = iequals b c.
Proof.
  revert b c. induction a as [|x a IH]; intros [|y b] [|z c] Hab; try done.
  simpl in Hab. apply andb_true_iff in Hab as [Hxy Hab].
  apply bool_decide_eq_true in Hxy. simpl. rewrite Hxy. f_equal.
  by apply IH.
Qed.

(** X23. The factory does not look at the case of the name: two names that
    are equal up to case give the same result. *)
Theorem new_heuristic_case_insensitive method method' :
  iequals method method' = true →
  new_heuristic method = new_heuristic method'.
Proof.
  intros Heq. unfold new_heuristic.
  by rewrite !(iequals_trans_l method method' _ Heq).
Qed.

Lemma new_heuristic_case_insensitive_witness :
  new_heuristic "GoalCount" = new_heuristic "gOALcOUNT".
Proof.
  apply (new_heuristic_case_insensitive "GoalCount" "gOALcOUNT").
  reflexivity.
Defined.
